(** * Tidy.ipynb: the rest-days reshape pipeline

    A shallow embedding of the data-frame pipeline of [Tidy.ipynb]:

    - [games]      (cell "games = (pd.read_csv ... .sort_index())"),
    - [teams]      (cell "teams = (games.reset_index().melt(...).sort_values(...))"),
    - [bulls], [diff_days_minus_1]  (cells "bulls = ..." and
                   "bulls['date'].diff().dt.days - 1"),
    - [rest]       (cell "rest = teams.groupby(...)...", body elided in the
                   notebook),
    - [by_game]    (cell "by_game = (pd.pivot_table(...) ...)"),
    - [games_rest] (cell "games_rest = pd.concat([games, by_game], ...).dropna()"),
    - [home_more_rested], [home_won], [win_rate_by_rest] (exercise cell, body
                   elided in the notebook).

    A data frame is a list of rows, in row order.  A missing value (NaN, NaT,
    None) is [None]; row labels that pandas keeps in the index are ordinary
    fields of the row.  Dates are day numbers (days since 1970-01-01): every
    date of the notebook is parsed from a day-resolution format, so a
    [Timedelta]'s [.days] is the difference of two day numbers.  Points are the
    integral scores of the file (read by pandas as 106.0, 94.0, ...). *)

From Stdlib Require Import String.
From Stdlib Require Import List Bool Arith ZArith QArith Qreduction Lia
  Permutation Sorted.
Import ListNotations.
Local Open Scope Z_scope.

(* ------------------------------------------------------------------ *)
(** ** Calendar dates *)

(** Day number of the proleptic Gregorian date [y]-[m]-[d], counted from
    1970-01-01, the origin of pandas' [Timestamp]. *)
Definition days_from_civil (y m d : Z) : Z :=
  let y' := if m <=? 2 then y - 1 else y in
  let era := y' / 400 in
  let yoe := y' - era * 400 in
  let mp := (m + 9) mod 12 in
  let doy := (153 * mp + 2) / 5 + d - 1 in
  let doe := yoe * 365 + yoe / 4 - yoe / 100 + doy in
  era * 146097 + doe - 719468.

(* ------------------------------------------------------------------ *)
(** ** Row labels *)

(** The two-level row label [(game_id, date)] built by
    [.set_index('date', append=True).rename_axis(["game_id", "date"])]. *)
Definition Key : Type := (nat * option Z)%type.

Definition key_eq_dec (a b : Key) : {a = b} + {a <> b}.
Proof.
  decide equality.
  - decide equality. apply Z.eq_dec.
  - apply Nat.eq_dec.
Defined.

Definition key_eqb (a b : Key) : bool :=
  if key_eq_dec a b then true else false.

(** Order of the [date] level: a missing date (NaT) sorts last
    ([na_position='last']). *)
Definition date_leb (a b : option Z) : bool :=
  match a, b with
  | Some x, Some y => (x <=? y)%Z
  | Some _, None => true
  | None, Some _ => false
  | None, None => true
  end.

(** Lexicographic order on [(game_id, date)], as used by [.sort_index()] and by
    [.sort_values(['game_id', 'date'])]: [game_id] first, then [date]. *)
Definition key_leb (a b : Key) : bool :=
  (fst a <? fst b)%nat || ((fst a =? fst b)%nat && date_leb (snd a) (snd b)).

Section Sorting.
Context {A : Type} (key : A -> Key).

(** Insertion in front of the first row whose key is not smaller: rows with
    equal keys keep their relative order (the multi-column sort of pandas is
    a stable lexsort). *)
Fixpoint insert_row (x : A) (df : list A) : list A :=
  match df with
  | [] => [x]
  | y :: df' =>
      if key_leb (key x) (key y) then x :: df else y :: insert_row x df'
  end.

Fixpoint sort_values (df : list A) : list A :=
  match df with
  | [] => []
  | x :: df' => insert_row x (sort_values df')
  end.
End Sorting.

(* ------------------------------------------------------------------ *)
(** ** Loader: the [games] cell *)

(** One line of [data/games.csv.gz], under the header
    [Date,Start (ET),Unnamed: 2,Visitor/Neutral,PTS,Home/Neutral,PTS.1,Unnamed: 7,Notes].
    An empty field is read as missing. *)
Record CsvRow : Type := mkCsvRow {
  Date : option string;
  Start_ET : option string;
  Unnamed_2 : option string;
  Visitor_Neutral : option string;
  PTS : option Z;
  Home_Neutral : option string;
  PTS_1 : option Z;
  Unnamed_7 : option string;
  Notes : option string
}.

(** A row of the cleaned [games] frame: index [(game_id, date)] and the four
    selected columns. *)
Record Game : Type := mkGame {
  game_id : nat;
  date : option Z;
  away_team : option string;
  away_points : option Z;
  home_team : option string;
  home_points : option Z
}.

Definition game_key (g : Game) : Key := (game_id g, date g).

Definition notna {A : Type} (x : option A) : nat :=
  match x with Some _ => 1%nat | None => 0%nat end.

(** Number of non-missing fields of a line. *)
Definition count_notna (r : CsvRow) : nat :=
  (notna (Date r) + notna (Start_ET r) + notna (Unnamed_2 r)
   + notna (Visitor_Neutral r) + notna (PTS r) + notna (Home_Neutral r)
   + notna (PTS_1 r) + notna (Unnamed_7 r) + notna (Notes r))%nat.

(** [pd.read_csv]: the lines labelled by their position (a RangeIndex). *)
Definition read_csv (csv : list CsvRow) : list (nat * CsvRow) :=
  combine (seq 0 (length csv)) csv.

(** [.dropna(thresh=n)]: keep the rows with at least [n] non-missing values;
    the row labels are kept. *)
Definition dropna_thresh (n : nat) (df : list (nat * CsvRow)) :
  list (nat * CsvRow) :=
  filter (fun ir => (n <=? count_notna (snd ir))%nat) df.

(** [mapM] for [option]: the first failure fails the whole frame. *)
Fixpoint traverse {A B : Type} (f : A -> option B) (l : list A) :
  option (list B) :=
  match l with
  | [] => Some []
  | x :: l' =>
      match f x with
      | None => None
      | Some y =>
          match traverse f l' with
          | None => None
          | Some ys => Some (y :: ys)
          end
      end
  end.

Section Loader.
(** [pd.to_datetime(_, format='%a, %b %d, %Y')] on one string: the day
    number, or [None] when pandas raises [ValueError].  The parser is
    pandas'; the pipeline is modelled for any such function. *)
Variable to_datetime : string -> option Z.

(** Column selection, [.assign(date=...)] and [.set_index('date',
    append=True)] on one row.  A missing [Date] becomes NaT; a [Date] that
    does not parse raises. *)
Definition clean_row (ir : nat * CsvRow) : option Game :=
  let r := snd ir in
  match Date r with
  | None =>
      Some (mkGame (fst ir) None (Visitor_Neutral r) (PTS r)
              (Home_Neutral r) (PTS_1 r))
  | Some s =>
      match to_datetime s with
      | None => None
      | Some d =>
          Some (mkGame (fst ir) (Some d) (Visitor_Neutral r) (PTS r)
                  (Home_Neutral r) (PTS_1 r))
      end
  end.

(** The [games] cell; [None] when [pd.to_datetime] raises. *)
Definition games (csv : list CsvRow) : option (list Game) :=
  match traverse clean_row (dropna_thresh 4 (read_csv csv)) with
  | None => None
  | Some df => Some (sort_values game_key df)
  end.
End Loader.

(** The lines dropped by [.dropna(thresh=4)]. *)
Definition dropped_rows (csv : list CsvRow) : list (nat * CsvRow) :=
  filter (fun ir => (count_notna (snd ir) <? 4)%nat) (read_csv csv).

(** The index invariant of [games]: row numbers strictly increase. *)
Definition index_increasing (gs : list Game) : Prop :=
  StronglySorted (fun a b => (game_id a < game_id b)%nat) gs.

(* ------------------------------------------------------------------ *)
(** ** Reshaper: the [teams] cell *)

(** The values of the [home_away] column: the names of the melted columns. *)
Inductive Role : Type := var_away_team | var_home_team.

Definition role_eqb (a b : Role) : bool :=
  match a, b with
  | var_away_team, var_away_team => true
  | var_home_team, var_home_team => true
  | _, _ => false
  end.

(** A row of a long (melted) frame with value column of type [V]. *)
Record Long (V : Type) : Type := mkLong {
  l_game_id : nat;
  l_date : option Z;
  home_away : Role;
  l_value : V
}.
Arguments mkLong {V} _ _ _ _.
Arguments l_game_id {V} _.
Arguments l_date {V} _.
Arguments home_away {V} _.
Arguments l_value {V} _.

Definition long_key {V : Type} (r : Long V) : Key := (l_game_id r, l_date r).

(** A row of [teams]: the value column is named [team]. *)
Definition TeamRow : Type := Long (option string).
Definition team (r : TeamRow) : option string := l_value r.

(** [.melt(id_vars=['game_id', 'date'], value_vars=[away, home], ...)]: the
    rows of the first value column in frame order, then those of the second. *)
Definition melt {R V : Type} (id : R -> Key) (away home : R -> V)
  (df : list R) : list (Long V) :=
  map (fun r => mkLong (fst (id r)) (snd (id r)) var_away_team (away r)) df
  ++ map (fun r => mkLong (fst (id r)) (snd (id r)) var_home_team (home r)) df.

(** The [teams] cell ([reset_index] only moves the labels to columns). *)
Definition teams (gs : list Game) : list TeamRow :=
  sort_values long_key (melt game_key away_team home_team gs).

(** The two appearances of one game, away first. *)
Definition appearances (g : Game) : list TeamRow :=
  [mkLong (game_id g) (date g) var_away_team (away_team g);
   mkLong (game_id g) (date g) var_home_team (home_team g)].

(* ------------------------------------------------------------------ *)
(** ** Rest-days calculator *)

(** [teams[teams['team'] == name]]: a missing team name equals no name. *)
Definition team_is (name : string) (r : TeamRow) : bool :=
  match team r with
  | Some t => String.eqb t name
  | None => false
  end.

Definition select_team (name : string) (df : list TeamRow) : list TeamRow :=
  filter (team_is name) df.

(** The [bulls] cell. *)
Definition bulls (df : list TeamRow) : list TeamRow :=
  select_team "Chicago Bulls" df.

(** One entry of [.diff().dt.days - 1]: the days between the current and the
    previous date, minus one; missing as soon as one of them is (NaT). *)
Definition days_minus_1 (cur prev : option Z) : option Z :=
  match cur, prev with
  | Some c, Some p => Some (c - p - 1)
  | _, _ => None
  end.

Fixpoint diff_from (prev : option Z) (dates : list (option Z)) :
  list (option Z) :=
  match dates with
  | [] => []
  | d :: dates' => days_minus_1 d prev :: diff_from d dates'
  end.

(** [s.diff().dt.days - 1] on a date column: every row against the row just
    before it, the first row against nothing. *)
Definition diff_days_minus_1 (dates : list (option Z)) : list (option Z) :=
  diff_from None dates.

(** The cell "bulls['date'].diff().dt.days - 1". *)
Definition bulls_rest (df : list TeamRow) : list (option Z) :=
  diff_days_minus_1 (map l_date (bulls df)).

(** Modelled from the spec: the grouping of the elided cell
    "rest = teams.groupby(...)..." (section 4.2: partition by team name).  Two
    rows belong to the same group when their team names are equal; a row
    without a team name belongs to no group. *)
Definition same_team (a b : TeamRow) : bool :=
  match team a, team b with
  | Some x, Some y => String.eqb x y
  | _, _ => false
  end.

(** Modelled from the spec: the per-group difference of the same elided cell,
    row by row in frame order.  [seen] holds the rows already passed, the
    latest first, so the first match is the previous row of the same group. *)
Fixpoint groupby_diff (seen df : list TeamRow) : list (option Z) :=
  match df with
  | [] => []
  | r :: df' =>
      match find (same_team r) seen with
      | Some p => days_minus_1 (l_date r) (l_date p)
      | None => None
      end :: groupby_diff (r :: seen) df'
  end.

(** Modelled from the spec: the body of the cell "rest = teams.groupby(...)..."
    is elided in the notebook and [solutions/tidy_groupby_rest.py] is absent.
    The cell's comments ("previously: bulls['date'].diff().dt.days - 1",
    "Repeat this for each group with .groupby()", "select date, diff, days,
    subtract 1") and section 4.2 of the spec give: partition by team name, and
    in each partition the days since the previous appearance minus one.  The
    rows of a partition are taken in the order of the frame, which is the
    order the [teams] cell has sorted them in: the comments of the cell list
    no other step. *)
Definition rest (df : list TeamRow) : list (option Z) :=
  groupby_diff [] df.

(** A row of [teams] after the cell "teams['rest'] = rest". *)
Definition RestRow : Type := (TeamRow * option Z)%type.

Definition add_rest (df : list TeamRow) : list RestRow :=
  combine df (rest df).

Definition teams_rest (gs : list Game) : list RestRow :=
  add_rest (teams gs).

(* ------------------------------------------------------------------ *)
(** ** Re-widener: the [by_game] cell *)

Definition sum_Z (l : list Z) : Z := fold_right Z.add 0 l.

(** [aggfunc='mean'], over the non-missing values of a group; missing when
    there is none.  Kept in lowest terms. *)
Definition mean (l : list Z) : option Q :=
  match l with
  | [] => None
  | _ :: _ => Some (Qred (sum_Z l # Pos.of_nat (List.length l)))
  end.

(** The non-missing [rest] values of the group [(k, c)]. *)
Definition group_values (k : Key) (c : Role) (df : list RestRow) : list Z :=
  flat_map
    (fun x =>
       if key_eqb (long_key (fst x)) k && role_eqb (home_away (fst x)) c
       then match snd x with Some z => [z] | None => [] end
       else [])
    df.

(** A row that survives into the pivot: its group label has no missing part
    (groupby drops NaT labels) and its value is present. *)
Definition observed (x : RestRow) : bool :=
  match l_date (fst x), snd x with
  | Some _, Some _ => true
  | _, _ => false
  end.

(** A row of the pivoted frame: one cell per value of [home_away]. *)
Record WideRest : Type := mkWideRest {
  w_key : Key;
  w_away : option Q;
  w_home : option Q
}.

Record Pivot : Type := mkPivot {
  pv_columns : list Role;
  pv_rows : list WideRest
}.

(** [pd.pivot_table(df, values='rest', index=['game_id', 'date'],
    columns='home_away')] with the defaults [aggfunc='mean'] and
    [dropna=True]: the groups [(game_id, date, home_away)] are averaged, groups
    whose mean is missing are dropped, the remaining ones are unstacked on
    [home_away] with row labels sorted, and a column with no entry left is not
    included (pandas on [dropna]: "Do not include columns whose entries are
    all NaN"). *)
Definition pivot_table (df : list RestRow) : Pivot :=
  let kept := filter observed df in
  mkPivot
    (filter (fun c => existsb (fun x => role_eqb (home_away (fst x)) c) kept)
       [var_away_team; var_home_team])
    (map (fun k => mkWideRest k (mean (group_values k var_away_team df))
                     (mean (group_values k var_home_team df)))
       (sort_values (fun k => k)
          (nodup key_eq_dec (map (fun x => long_key (fst x)) kept)))).

(** The columns of [by_game]. *)
Inductive RestColumn : Type := away_rest | home_rest.

(** [.rename(columns={'away_team': 'away_rest', 'home_team': 'home_rest'})]. *)
Definition rename_column (c : Role) : RestColumn :=
  match c with
  | var_away_team => away_rest
  | var_home_team => home_rest
  end.

Record ByGame : Type := mkByGame {
  bg_columns : list RestColumn;
  bg_rows : list WideRest
}.

(** The [by_game] cell ([rename_axis(None, axis='columns')] only clears the
    name of the column axis). *)
Definition by_game (df : list RestRow) : ByGame :=
  let p := pivot_table df in
  mkByGame (map rename_column (pv_columns p)) (pv_rows p).

(** Melting [by_game] back to one row per (game, side):
    [by_game.reset_index().melt(id_vars=['game_id', 'date'],
    value_vars=['away_rest', 'home_rest'])], the sides named as in [teams]. *)
Definition remelt (bg : ByGame) : list (Long (option Q)) :=
  melt w_key w_away w_home (bg_rows bg).

(* ------------------------------------------------------------------ *)
(** ** The rest-augmented game table: the [games_rest] cell *)

(** A row of [pd.concat([games, by_game], axis='columns')]. *)
Record GameRest : Type := mkGameRest {
  gr_game : Game;
  gr_away_rest : option Q;
  gr_home_rest : option Q
}.

Record GamesRest : Type := mkGamesRest {
  gr_columns : list RestColumn;
  gr_rows : list GameRest
}.

Definition rest_value (c : RestColumn) (r : GameRest) : option Q :=
  match c with
  | away_rest => gr_away_rest r
  | home_rest => gr_home_rest r
  end.

Definition lookup_rest (k : Key) (rows : list WideRest) : option WideRest :=
  find (fun w => key_eqb (w_key w) k) rows.

(** The row of [games] with the cells of [by_game] under the same label,
    missing when [by_game] has no such label. *)
Definition join_left (bg : ByGame) (g : Game) : GameRest :=
  match lookup_rest (game_key g) (bg_rows bg) with
  | Some w => mkGameRest g (w_away w) (w_home w)
  | None => mkGameRest g None None
  end.

(** A label of [by_game] that [games] does not have: the game columns are
    missing. *)
Definition join_right (w : WideRest) : GameRest :=
  mkGameRest (mkGame (fst (w_key w)) (snd (w_key w)) None None None None)
    (w_away w) (w_home w).

(** [pd.concat([games, by_game], axis='columns')]: an outer join on the row
    labels.  Every row of [games] gets the cells [by_game] has under its
    label; the labels only [by_game] has follow. *)
Definition concat_columns (gs : list Game) (bg : ByGame) : GamesRest :=
  mkGamesRest (bg_columns bg)
    (map (join_left bg) gs
     ++ map join_right
          (filter (fun w => negb (existsb (key_eqb (w_key w))
                                    (map game_key gs)))
             (bg_rows bg))).

Definition isSome {A : Type} (x : option A) : bool :=
  match x with Some _ => true | None => false end.

(** No cell of the row is missing, over the columns the frame has. *)
Definition complete (cols : list RestColumn) (r : GameRest) : bool :=
  isSome (away_team (gr_game r)) && isSome (away_points (gr_game r))
  && isSome (home_team (gr_game r)) && isSome (home_points (gr_game r))
  && forallb (fun c => isSome (rest_value c r)) cols.

(** [.dropna()]: drop the rows with a missing cell. *)
Definition dropna (t : GamesRest) : GamesRest :=
  mkGamesRest (gr_columns t) (filter (complete (gr_columns t)) (gr_rows t)).

(** The [games_rest] cell. *)
Definition games_rest (gs : list Game) : GamesRest :=
  dropna (concat_columns gs (by_game (teams_rest gs))).

(* ------------------------------------------------------------------ *)
(** ** Derived analysis: the exercise cell *)

(** Modelled from the spec: the exercise cell leaves the three expressions
    elided ("games_rest[...] > games_rest[...]") and
    [solutions/tidy_rest_advantage.py] is absent.  Section 4.4 of the spec:
    home more rested = home-rest > away-rest. *)
Definition home_more_rested (r : GameRest) : bool :=
  match gr_home_rest r, gr_away_rest r with
  | Some h, Some a => negb (Qle_bool h a)
  | _, _ => false
  end.

(** Modelled from the spec: elided in the same cell; section 4.4 of the spec:
    home won = home-points > away-points. *)
Definition home_won (r : GameRest) : bool :=
  match home_points (gr_game r), away_points (gr_game r) with
  | Some h, Some a => (a <? h)%Z
  | _, _ => false
  end.

Definition count_true (l : list bool) : nat :=
  List.length (filter (fun b => b) l).

(** The mean of a boolean column (True counts 1, False counts 0). *)
Definition mean_bool (l : list bool) : option Q :=
  match l with
  | [] => None
  | _ :: _ =>
      Some (Qred (Z.of_nat (count_true l) # Pos.of_nat (List.length l)))
  end.

(** One entry of a group-by mean: nothing for a key that does not occur. *)
Definition group_mean (k : bool) (rows : list GameRest) : list (bool * Q) :=
  match mean_bool (map home_won
                     (filter (fun r => Bool.eqb (home_more_rested r) k) rows))
  with
  | Some m => [(k, m)]
  | None => []
  end.

(** Modelled from the spec: elided in the same cell; the notebook's text
    ("Group the home team won series by the home team had more rest series and
    take the mean") and section 4.4 of the spec: the mean of [home_won] per
    value of [home_more_rested] that occurs, keys in sorted order (False,
    True). *)
Definition win_rate_by_rest (rows : list GameRest) : list (bool * Q) :=
  group_mean false rows ++ group_mean true rows.

(* ------------------------------------------------------------------ *)
(** ** Orders and side conditions used in the statements *)

(** [a] comes no later than [b] when the rows are ordered by date ascending,
    ties on date broken by game id ascending. *)
Definition date_then_id_leb (a b : TeamRow) : bool :=
  negb (date_leb (l_date b) (l_date a))
  || (date_leb (l_date a) (l_date b) && (l_game_id a <=? l_game_id b)%nat).

Definition ordered_by_date (df : list TeamRow) : Prop :=
  StronglySorted (fun a b => date_then_id_leb a b = true) df.

(** The order [.sort_values(['game_id', 'date'])] establishes. *)
Definition ordered_by_key (df : list TeamRow) : Prop :=
  StronglySorted (fun a b => key_leb (long_key a) (long_key b) = true) df.

(** The lines of the file are in chronological order. *)
Definition chronological (gs : list Game) : Prop :=
  StronglySorted (fun a b => date_leb (date a) (date b) = true) gs.

(** The side [c] of the game labelled [k] has a rest value in [df]. *)
Definition side_defined (df : list RestRow) (k : Key) (c : Role) : bool :=
  existsb
    (fun y => key_eqb (long_key (fst y)) k && role_eqb (home_away (fst y)) c
              && isSome (snd y))
    df.

(** The rest value of the appearance [(id, c)] in [df], if any. *)
Definition rest_of (df : list RestRow) (id : nat) (c : Role) : option Z :=
  match find (fun y => (l_game_id (fst y) =? id)%nat
                       && role_eqb (home_away (fst y)) c) df with
  | Some y => snd y
  | None => None
  end.

(** The rows of one team, with their rest values. *)
Definition team_partition (name : string) (df : list RestRow) : list RestRow :=
  filter (fun x => team_is name (fst x)) df.

(** The date of the latest row of team [name] among the rows already passed. *)
Definition prev_date (name : string) (seen : list TeamRow) : option Z :=
  match find (team_is name) seen with
  | Some p => l_date p
  | None => None
  end.

(** The cell of a pivoted row under the column of side [c]. *)
Definition cell (c : Role) (w : WideRest) : option Q :=
  match c with
  | var_away_team => w_away w
  | var_home_team => w_home w
  end.

(** The appearance a row stands for: its game id and its side. *)
Definition side_of (y : RestRow) : nat * Role :=
  (l_game_id (fst y), home_away (fst y)).

(** A team name or a point value of the game is missing. *)
Definition missing_attribute (g : Game) : bool :=
  negb (isSome (away_team g) && isSome (away_points g)
        && isSome (home_team g) && isSome (home_points g)).

(* ------------------------------------------------------------------ *)
(** ** Sample frames *)

(** The first lines of the file shown in the notebook. *)
Definition sample_csv : list CsvRow :=
  [ mkCsvRow (Some "October"%string) None None None None None None None None;
    mkCsvRow (Some "Tue, Oct 27, 2015"%string) (Some "8:00 pm"%string)
      (Some "Box Score"%string) (Some "Detroit Pistons"%string) (Some 106)
      (Some "Atlanta Hawks"%string) (Some 94) None None;
    mkCsvRow (Some "Tue, Oct 27, 2015"%string) (Some "8:00 pm"%string)
      (Some "Box Score"%string) (Some "Cleveland Cavaliers"%string) (Some 95)
      (Some "Chicago Bulls"%string) (Some 97) None None;
    mkCsvRow (Some "Tue, Oct 27, 2015"%string) (Some "10:30 pm"%string)
      (Some "Box Score"%string) (Some "New Orleans Pelicans"%string) (Some 95)
      (Some "Golden State Warriors"%string) (Some 111) None None ].

(** A date parser that knows the date strings of [sample_csv]. *)
Definition sample_to_datetime (s : string) : option Z :=
  if String.eqb s "Tue, Oct 27, 2015" then Some (days_from_civil 2015 10 27)
  else None.

(** Chicago plays on 2015-10-27 and next on 2015-10-30. *)
Definition bulls_games : list Game :=
  [ mkGame 1 (Some (days_from_civil 2015 10 27))
      (Some "Cleveland Cavaliers"%string) (Some 95)
      (Some "Chicago Bulls"%string) (Some 97);
    mkGame 2 (Some (days_from_civil 2015 10 30))
      (Some "Chicago Bulls"%string) (Some 94)
      (Some "Detroit Pistons"%string) (Some 98);
    mkGame 3 (Some (days_from_civil 2015 11 1))
      (Some "Detroit Pistons"%string) (Some 90)
      (Some "Cleveland Cavaliers"%string) (Some 102) ].

(** The same two Chicago games, listed in the file latest first. *)
Definition unordered_games : list Game :=
  [ mkGame 0 (Some (days_from_civil 2015 10 30))
      (Some "Chicago Bulls"%string) (Some 94)
      (Some "Detroit Pistons"%string) (Some 98);
    mkGame 1 (Some (days_from_civil 2015 10 27))
      (Some "Cleveland Cavaliers"%string) (Some 95)
      (Some "Chicago Bulls"%string) (Some 97) ].

(** Two games in which no home team has played before. *)
Definition first_home_games : list Game :=
  [ mkGame 0 (Some (days_from_civil 2015 10 27))
      (Some "Cleveland Cavaliers"%string) (Some 95)
      (Some "Chicago Bulls"%string) (Some 97);
    mkGame 1 (Some (days_from_civil 2015 10 29))
      (Some "Cleveland Cavaliers"%string) (Some 102)
      (Some "Detroit Pistons"%string) (Some 90) ].

(** Two lines of the file, the second with an empty [Date] field: it has six
    other fields, so [.dropna(thresh=4)] keeps it. *)
Definition undated_csv : list CsvRow :=
  [ mkCsvRow (Some "Tue, Oct 27, 2015"%string) (Some "8:00 pm"%string)
      (Some "Box Score"%string) (Some "Cleveland Cavaliers"%string) (Some 95)
      (Some "Chicago Bulls"%string) (Some 97) None None;
    mkCsvRow None (Some "8:00 pm"%string)
      (Some "Box Score"%string) (Some "Chicago Bulls"%string) (Some 94)
      (Some "Detroit Pistons"%string) (Some 98) None None ].

(** The [games] frame of [undated_csv]: the second game has date NaT. *)
Definition undated_games : list Game :=
  [ mkGame 0 (Some (days_from_civil 2015 10 27))
      (Some "Cleveland Cavaliers"%string) (Some 95)
      (Some "Chicago Bulls"%string) (Some 97);
    mkGame 1 None
      (Some "Chicago Bulls"%string) (Some 94)
      (Some "Detroit Pistons"%string) (Some 98) ].

Definition sample_game (id : nat) (ap hp : Z) (ar hr : Q) : GameRest :=
  mkGameRest
    (mkGame id (Some (days_from_civil 2015 11 (Z.of_nat id)))
       (Some "Away"%string) (Some ap) (Some "Home"%string) (Some hp))
    (Some ar) (Some hr).

(** Game A: home rest 3, away rest 1, home won.  Game B: home rest 1, away
    rest 1, home lost. *)
Definition game_A : GameRest := sample_game 1 95 97 (1 # 1) (3 # 1).
Definition game_B : GameRest := sample_game 2 102 90 (1 # 1) (1 # 1).

(* ------------------------------------------------------------------ *)
(** ** Other cells of the notebooks *)




(** [Series.dropna()]: the non-missing values, in order. *)
Definition dropna_series {A : Type} (s : list (option A)) : list A :=
  flat_map (fun v => match v with Some z => [z] | None => [] end) s.

(** The cell of a [by_game] row under a column. *)
Definition wide_value (c : RestColumn) (w : WideRest) : option Q :=
  match c with
  | away_rest => w_away w
  | home_rest => w_home w
  end.

(** [by_game.dropna()], in the cell "by_game.dropna().head()": the rows with no
    missing cell, over the columns the frame has. *)
Definition dropna_by_game (bg : ByGame) : ByGame :=
  mkByGame (bg_columns bg)
    (filter (fun w => forallb (fun c => isSome (wide_value c w))
                        (bg_columns bg))
       (bg_rows bg)).

(** *** Performance.ipynb *)

(** [list(range(n))]. *)
Definition range (n : nat) : list Z := map Z.of_nat (seq 0 n).

(** [Series.sum()]: missing values are skipped. *)
Definition series_sum (s : list (option Z)) : Z := sum_Z (dropna_series s).

(** [Series.mean()]: the mean of the non-missing values, missing when there
    is none. *)
Definition series_mean (s : list (option Z)) : option Q :=
  mean (dropna_series s).

(** The series of the cells "a = pd.Series([None] + list(range(10000)), ...)",
    for any length. *)
Definition none_then_range (n : nat) : list (option Z) :=
  None :: map Some (range n).

(** A [pd.Categorical]: the valid values, one integer code per element (-1
    for a missing element) and the ordering flag. *)
Record Categorical : Type := mkCategorical {
  categories : list string;
  codes : list Z;
  ordered : bool
}.

Fixpoint index_of (v : string) (cats : list string) : option nat :=
  match cats with
  | [] => None
  | c :: cats' =>
      if String.eqb c v then Some 0%nat
      else match index_of v cats' with
           | Some i => Some (S i)
           | None => None
           end
  end.

(** Factorizing one value: its position in [categories], or -1 when it is not
    a category. *)
Definition code_of (cats : list string) (v : string) : Z :=
  match index_of v cats with
  | Some i => Z.of_nat i
  | None => -1
  end.

Fixpoint unique_strings (l : list string) : bool :=
  match l with
  | [] => true
  | x :: l' => negb (existsb (String.eqb x) l') && unique_strings l'
  end.

(** [pd.Categorical(values, categories=cats, ordered=o)]: raises ([None]) when
    the categories are not unique; a value that is not a category becomes
    missing. *)
Definition Categorical_new (values cats : list string) (o : bool) :
  option Categorical :=
  if unique_strings cats
  then Some (mkCategorical cats (map (code_of cats) values) o)
  else None.

(** The element a code stands for. *)
Definition decode_code (cats : list string) (c : Z) : option string :=
  if c <? 0 then None else nth_error cats (Z.to_nat c).

(** The values of a categorical, as the cell "a" shows them. *)
Definition Categorical_values (a : Categorical) : list (option string) :=
  map (decode_code (categories a)) (codes a).

(** A Python index into a sequence of length [n]: negative indices count from
    the end; [None] when it is out of bounds. *)
Definition py_index (n : nat) (i : Z) : option nat :=
  let j := if i <? 0 then i + Z.of_nat n else i in
  if (0 <=? j) && (j <? Z.of_nat n) then Some (Z.to_nat j) else None.

Fixpoint set_nth {A : Type} (l : list A) (i : nat) (x : A) : list A :=
  match l, i with
  | [], _ => []
  | _ :: l', O => x :: l'
  | y :: l', S i' => y :: set_nth l' i' x
  end.

(** The cell "a[0] = 'OK'": [a[i] = v].  Raises ([None]) when [v] is not a
    category, and when [i] is out of bounds. *)
Definition Categorical_setitem (a : Categorical) (i : Z) (v : string) :
  option Categorical :=
  match index_of v (categories a) with
  | None => None
  | Some c =>
      match py_index (List.length (codes a)) i with
      | None => None
      | Some j =>
          Some (mkCategorical (categories a)
                  (set_nth (codes a) j (Z.of_nat c)) (ordered a))
      end
  end.

(** The categorical of the notebook. *)
Definition quality : list string * list string :=
  (["good"; "better"; "good"; "best"]%string,
   ["good"; "better"; "best"]%string).

Definition population : Z := 321000000.

(** The cell that prints the size of one string per person, in MB.
    [bytes_per] is [sys.getsizeof("AL")], which depends on the interpreter. *)
Definition plain_MB (bytes_per : Z) : Z :=
  population * bytes_per / 1000000.

(** The cell that prints the size as a Categorical, in MB: 50 category strings
    and [bytes_per_person = 1] byte of code per person. *)
Definition categorical_MB (bytes_per : Z) : Z :=
  let character_bytes := 50 * bytes_per in
  let bytes_per_person := 1 in
  (character_bytes + population * bytes_per_person) / 1000000.

(** One of the two appearances of the game has a rest value in [df]. *)
Definition has_rest (df : list RestRow) (g : Game) : bool :=
  isSome (rest_of df (game_id g) var_away_team)
  || isSome (rest_of df (game_id g) var_home_team).

(** Strictly before, in label order. *)
Definition key_lt (a b : Key) : Prop := key_leb a b = true /\ a <> b.

(** The label and the two rest cells of a row of [games_rest]. *)
Definition wide_of (r : GameRest) : WideRest :=
  mkWideRest (game_key (gr_game r)) (gr_away_rest r) (gr_home_rest r).

(* ================================================================== *)
(** * Properties *)

(* ------------------------------------------------------------------ *)
(** ** The pipeline on the sample frames *)

Example days_from_civil_epoch : days_from_civil 1970 1 1 = 0.
Proof. reflexivity. Qed.

Example days_from_civil_leap :
  days_from_civil 2016 3 1 - days_from_civil 2016 2 28 = 2.
Proof. reflexivity. Qed.

Example days_between_bulls_games :
  days_from_civil 2015 10 30 - days_from_civil 2015 10 27 = 3.
Proof. reflexivity. Qed.

Example games_sample_index :
  option_map (map game_key) (games sample_to_datetime sample_csv)
  = Some [(1%nat, Some 16735); (2%nat, Some 16735); (3%nat, Some 16735)].
Proof. reflexivity. Qed.

Example teams_sample :
  map (fun t => (l_game_id t, home_away t, team t)) (teams bulls_games)
  = [(1%nat, var_away_team, Some "Cleveland Cavaliers"%string);
     (1%nat, var_home_team, Some "Chicago Bulls"%string);
     (2%nat, var_away_team, Some "Chicago Bulls"%string);
     (2%nat, var_home_team, Some "Detroit Pistons"%string);
     (3%nat, var_away_team, Some "Detroit Pistons"%string);
     (3%nat, var_home_team, Some "Cleveland Cavaliers"%string)].
Proof. reflexivity. Qed.

Example rest_sample :
  rest (teams bulls_games) = [None; None; Some 2; None; Some 1; Some 4].
Proof. reflexivity. Qed.

Example by_game_sample :
  by_game (teams_rest bulls_games)
  = mkByGame [away_rest; home_rest]
      [mkWideRest (2%nat, Some 16738) (Some (2 # 1)) None;
       mkWideRest (3%nat, Some 16740) (Some (1 # 1)) (Some (4 # 1))].
Proof. reflexivity. Qed.

Example games_rest_sample :
  map (fun r => game_id (gr_game r)) (gr_rows (games_rest bulls_games))
  = [3%nat].
Proof. reflexivity. Qed.

Example by_game_first_home :
  by_game (teams_rest first_home_games)
  = mkByGame [away_rest] [mkWideRest (1%nat, Some 16737) (Some (1 # 1)) None].
Proof. reflexivity. Qed.

(* ------------------------------------------------------------------ *)
(** ** The order on row labels *)

Lemma date_leb_refl (a : option Z) : date_leb a a = true.
Proof. destruct a; simpl; auto. apply Z.leb_refl. Qed.

Lemma date_leb_total (a b : option Z) :
  date_leb a b = false -> date_leb b a = true.
Proof.
  destruct a, b; simpl; try congruence.
  intros H. apply Z.leb_gt in H. apply Z.leb_le. lia.
Qed.

Lemma date_leb_trans (a b c : option Z) :
  date_leb a b = true -> date_leb b c = true -> date_leb a c = true.
Proof.
  destruct a, b, c; simpl; try congruence.
  rewrite !Z.leb_le. lia.
Qed.

Lemma key_leb_refl (a : Key) : key_leb a a = true.
Proof.
  unfold key_leb. rewrite Nat.eqb_refl, date_leb_refl.
  apply orb_true_r.
Qed.

Lemma key_leb_lt (a b : Key) : (fst a < fst b)%nat -> key_leb a b = true.
Proof.
  intros H. unfold key_leb.
  apply Nat.ltb_lt in H. now rewrite H.
Qed.

Lemma key_leb_gt (a b : Key) : (fst b < fst a)%nat -> key_leb a b = false.
Proof.
  intros H. unfold key_leb.
  replace (fst a <? fst b)%nat with false
    by (symmetry; apply Nat.ltb_ge; lia).
  replace (fst a =? fst b)%nat with false
    by (symmetry; apply Nat.eqb_neq; lia).
  reflexivity.
Qed.

Lemma key_leb_total (a b : Key) : key_leb a b = false -> key_leb b a = true.
Proof.
  unfold key_leb. intros H.
  apply orb_false_iff in H. destruct H as [H1 H2].
  apply Nat.ltb_ge in H1.
  apply andb_false_iff in H2. destruct H2 as [H2 | H2].
  - apply Nat.eqb_neq in H2.
    replace (fst b <? fst a)%nat with true
      by (symmetry; apply Nat.ltb_lt; lia).
    reflexivity.
  - apply date_leb_total in H2. rewrite H2.
    destruct (Nat.eq_dec (fst a) (fst b)) as [E | E].
    + rewrite E, Nat.eqb_refl. apply orb_true_r.
    + replace (fst b <? fst a)%nat with true
        by (symmetry; apply Nat.ltb_lt; lia).
      reflexivity.
Qed.

Lemma key_leb_trans (a b c : Key) :
  key_leb a b = true -> key_leb b c = true -> key_leb a c = true.
Proof.
  unfold key_leb. intros H1 H2.
  apply orb_true_iff in H1. apply orb_true_iff in H2.
  destruct H1 as [H1 | H1], H2 as [H2 | H2];
    try apply Nat.ltb_lt in H1; try apply Nat.ltb_lt in H2;
    try (apply andb_true_iff in H1; destruct H1 as [H1 D1];
         apply Nat.eqb_eq in H1);
    try (apply andb_true_iff in H2; destruct H2 as [H2 D2];
         apply Nat.eqb_eq in H2).
  - replace (fst a <? fst c)%nat with true
      by (symmetry; apply Nat.ltb_lt; lia). reflexivity.
  - replace (fst a <? fst c)%nat with true
      by (symmetry; apply Nat.ltb_lt; lia). reflexivity.
  - replace (fst a <? fst c)%nat with true
      by (symmetry; apply Nat.ltb_lt; lia). reflexivity.
  - rewrite H1, H2, Nat.eqb_refl, (date_leb_trans _ _ _ D1 D2).
    apply orb_true_r.
Qed.

Lemma key_eqb_eq (a b : Key) : key_eqb a b = true <-> a = b.
Proof.
  unfold key_eqb. destruct (key_eq_dec a b); split; congruence.
Qed.

Lemma key_eqb_refl (a : Key) : key_eqb a a = true.
Proof. now apply key_eqb_eq. Qed.

Lemma role_eqb_eq (a b : Role) : role_eqb a b = true <-> a = b.
Proof. destruct a, b; simpl; split; congruence. Qed.

(* ------------------------------------------------------------------ *)
(** ** [sort_values] *)

Section SortingFacts.
Context {A : Type} (key : A -> Key).

Let le (a b : A) : Prop := key_leb (key a) (key b) = true.

Lemma insert_row_perm (x : A) (df : list A) :
  Permutation (insert_row key x df) (x :: df).
Proof.
  induction df as [| y df IH]; simpl.
  - apply Permutation_refl.
  - destruct (key_leb (key x) (key y)).
    + apply Permutation_refl.
    + eapply perm_trans; [apply perm_skip, IH | apply perm_swap].
Qed.

Lemma sort_values_perm (df : list A) : Permutation (sort_values key df) df.
Proof.
  induction df as [| x df IH]; simpl.
  - constructor.
  - eapply perm_trans; [apply insert_row_perm | now apply perm_skip].
Qed.

Lemma sort_values_In (x : A) (df : list A) :
  In x (sort_values key df) <-> In x df.
Proof.
  split; apply Permutation_in;
    [ | apply Permutation_sym]; apply sort_values_perm.
Qed.

Lemma insert_row_sorted (x : A) (df : list A) :
  StronglySorted le df -> StronglySorted le (insert_row key x df).
Proof.
  induction 1 as [| y df Hs IH Hall]; simpl.
  - repeat constructor.
  - destruct (key_leb (key x) (key y)) eqn:E.
    + constructor; [now constructor |].
      constructor; [exact E |].
      eapply Forall_impl; [| exact Hall].
      intros z Hz. unfold le in *. eapply key_leb_trans; eauto.
    + constructor; [exact IH |].
      eapply Permutation_Forall;
        [apply Permutation_sym, insert_row_perm |].
      constructor; [| exact Hall].
      now apply key_leb_total.
Qed.

Lemma sort_values_sorted (df : list A) :
  StronglySorted le (sort_values key df).
Proof.
  induction df as [| x df IH]; simpl.
  - constructor.
  - now apply insert_row_sorted.
Qed.

(** A row strictly below the rows before it and not above the rows after it
    is moved to the front, and nothing else changes. *)
Lemma sort_values_pull (l1 : list A) (x : A) (l2 : list A) :
  (forall a, In a l1 -> key_leb (key a) (key x) = false) ->
  (forall b, In b l2 -> key_leb (key x) (key b) = true) ->
  sort_values key (l1 ++ x :: l2) = x :: sort_values key (l1 ++ l2).
Proof.
  intros H1 H2. induction l1 as [| a l1 IH]; simpl.
  - destruct (sort_values key l2) as [| y s] eqn:E; simpl; auto.
    rewrite H2; auto.
    apply sort_values_In. rewrite E. now left.
  - rewrite IH by (intros; apply H1; now right).
    simpl. rewrite (H1 a) by now left. reflexivity.
Qed.
End SortingFacts.

(* ------------------------------------------------------------------ *)
(** ** The Reshaper *)

Lemma melt_cons {R V : Type} (id : R -> Key) (away home : R -> V)
  (r : R) (df : list R) :
  melt id away home (r :: df)
  = mkLong (fst (id r)) (snd (id r)) var_away_team (away r)
    :: (map (fun r => mkLong (fst (id r)) (snd (id r)) var_away_team (away r))
          df
        ++ mkLong (fst (id r)) (snd (id r)) var_home_team (home r)
           :: map (fun r => mkLong (fst (id r)) (snd (id r)) var_home_team
                              (home r)) df).
Proof. reflexivity. Qed.

Lemma melt_In {R V : Type} (id : R -> Key) (away home : R -> V)
  (df : list R) (x : Long V) :
  In x (melt id away home df) <->
  exists r, In r df /\
    (x = mkLong (fst (id r)) (snd (id r)) var_away_team (away r)
     \/ x = mkLong (fst (id r)) (snd (id r)) var_home_team (home r)).
Proof.
  unfold melt. rewrite in_app_iff, !in_map_iff. split.
  - intros [[r [E H]] | [r [E H]]]; exists r; split; auto.
  - intros [r [H [E | E]]]; [left | right]; exists r; auto.
Qed.

Lemma melt_perm (gs : list Game) :
  Permutation (melt game_key away_team home_team gs)
    (flat_map appearances gs).
Proof.
  induction gs as [| g gs IH].
  - constructor.
  - rewrite melt_cons. simpl. apply perm_skip.
    eapply perm_trans; [apply Permutation_sym, Permutation_middle |].
    apply perm_skip. exact IH.
Qed.

Lemma teams_perm (gs : list Game) :
  Permutation (teams gs) (flat_map appearances gs).
Proof.
  unfold teams.
  eapply perm_trans; [apply sort_values_perm | apply melt_perm].
Qed.

Lemma appearances_length (gs : list Game) :
  List.length (flat_map appearances gs) = (2 * List.length gs)%nat.
Proof. induction gs; simpl in *; lia. Qed.

Lemma appearances_ids (gs : list Game) (i : nat) :
  In i (map l_game_id (flat_map appearances gs)) <-> In i (map game_id gs).
Proof.
  induction gs as [| g gs IH]; simpl; tauto.
Qed.

Lemma index_increasing_tail (g : Game) (gs : list Game) :
  index_increasing (g :: gs) ->
  index_increasing gs /\ forall g', In g' gs -> (game_id g < game_id g')%nat.
Proof.
  intros H. apply StronglySorted_inv in H. destruct H as [H1 H2].
  split; auto. now apply Forall_forall.
Qed.

(** On an index that increases, [teams] lists the games in order, the away
    row of each game just before its home row. *)
Lemma teams_increasing (gs : list Game) :
  index_increasing gs -> teams gs = flat_map appearances gs.
Proof.
  unfold teams. induction gs as [| g gs IH]; intros H; auto.
  apply index_increasing_tail in H. destruct H as [Hs Hlt].
  rewrite melt_cons. cbn [sort_values].
  rewrite sort_values_pull.
  - fold (melt game_key away_team home_team gs). rewrite (IH Hs).
    cbn [insert_row long_key l_game_id l_date game_key fst snd].
    now rewrite key_leb_refl.
  - intros a Ha. apply in_map_iff in Ha. destruct Ha as [g' [<- Hg']].
    apply key_leb_gt. simpl. now apply Hlt.
  - intros b Hb. apply in_map_iff in Hb. destruct Hb as [g' [<- Hg']].
    apply key_leb_lt. simpl. now apply Hlt.
Qed.

Lemma teams_has_appearances (gs : list Game) (g : Game) :
  In g gs ->
  In (mkLong (game_id g) (date g) var_away_team (away_team g)) (teams gs)
  /\ In (mkLong (game_id g) (date g) var_home_team (home_team g)) (teams gs).
Proof.
  intros Hg.
  assert (forall x, In x (appearances g) -> In x (teams gs)) as Hin.
  { intros x Hx.
    eapply Permutation_in; [apply Permutation_sym, teams_perm |].
    apply in_flat_map. exists g. auto. }
  split; apply Hin; simpl; auto.
Qed.

(** C3. For every collection of games the Reshaper yields, up to row order,
    exactly the two appearances of each game: one with role away and one with
    role home, each with the game's id, date and the team of that side.  So
    there are twice as many appearances as games, and the game ids of the
    appearances are those of the games. *)
Theorem C3_melt_two_per_game (gs : list Game) :
  Permutation (teams gs) (flat_map appearances gs)
  /\ List.length (teams gs) = (2 * List.length gs)%nat
  /\ (forall g, In g gs ->
        In (mkLong (game_id g) (date g) var_away_team (away_team g)) (teams gs)
        /\ In (mkLong (game_id g) (date g) var_home_team (home_team g))
             (teams gs))
  /\ (forall i, In i (map l_game_id (teams gs)) <-> In i (map game_id gs)).
Proof.
  pose proof (teams_perm gs) as P.
  split; [exact P |]. split; [| split].
  - rewrite (Permutation_length P). apply appearances_length.
  - apply teams_has_appearances.
  - intros i. rewrite <- appearances_ids. split; apply Permutation_in.
    + now apply Permutation_map.
    + now apply Permutation_map, Permutation_sym.
Qed.

(* ------------------------------------------------------------------ *)
(** ** Row order before the per-team difference *)

Lemma StronglySorted_filter {A : Type} (R : A -> A -> Prop) (f : A -> bool)
  (l : list A) :
  StronglySorted R l -> StronglySorted R (filter f l).
Proof.
  induction 1 as [| x l Hs IH Hall]; simpl.
  - constructor.
  - destruct (f x); auto.
    constructor; auto.
    apply Forall_forall. intros y Hy. apply filter_In in Hy.
    rewrite Forall_forall in Hall. now apply Hall.
Qed.

Lemma teams_ordered_by_key (gs : list Game) : ordered_by_key (teams gs).
Proof. apply (sort_values_sorted long_key). Qed.

Lemma appearances_ordered_by_date (gs : list Game) :
  index_increasing gs -> chronological gs ->
  ordered_by_date (flat_map appearances gs).
Proof.
  unfold ordered_by_date.
  induction gs as [| g gs IH]; intros Hi Hc; simpl.
  - constructor.
  - apply index_increasing_tail in Hi. destruct Hi as [Hi Hlt].
    apply StronglySorted_inv in Hc. destruct Hc as [Hc Hle].
    rewrite Forall_forall in Hle.
    assert (forall c v x, In x (flat_map appearances gs) ->
              date_then_id_leb (mkLong (game_id g) (date g) c v) x = true)
      as Hall.
    { intros c v x Hx. apply in_flat_map in Hx. destruct Hx as [g' [Hg' Hx]].
      unfold date_then_id_leb.
      assert (l_date x = date g' /\ l_game_id x = game_id g') as [Ed Ei]
        by (simpl in Hx; destruct Hx as [<- | [<- | []]]; auto).
      cbn [l_date l_game_id]. rewrite Ed, Ei.
      rewrite (Hle g' Hg').
      replace (game_id g <=? game_id g')%nat with true
        by (symmetry; apply Nat.leb_le; specialize (Hlt g' Hg'); lia).
      apply orb_true_r. }
    constructor; [constructor; [now apply IH |] |].
    + apply Forall_forall. intros x Hx. now apply Hall.
    + constructor.
      * unfold date_then_id_leb. cbn [l_date l_game_id].
        rewrite date_leb_refl, Nat.leb_refl. reflexivity.
      * apply Forall_forall. intros x Hx. now apply Hall.
Qed.

(** C5, as stated, fails: [teams] is sorted on [game_id] first, so when the
    file lists Chicago's game of 2015-10-30 before its game of 2015-10-27 the
    Chicago partition reaches the difference latest date first. *)
Lemma C5_not_ordered_by_date :
  index_increasing unordered_games
  /\ ~ ordered_by_date (select_team "Chicago Bulls" (teams unordered_games)).
Proof.
  split.
  - repeat constructor.
  - intros H. vm_compute in H.
    apply StronglySorted_inv in H. destruct H as [_ H].
    inversion H as [| ? ? H1 _]. discriminate H1.
Qed.

(** C5, amended. Before the per-team difference every team partition is
    ordered by game id ascending, ties broken by date ascending (the order of
    [sort_values(['game_id', 'date'])]); it is ordered by date ascending, ties
    broken by game id, when the lines of the file are in chronological
    order. *)
Theorem C5_order_of_partitions (gs : list Game) (name : string) :
  ordered_by_key (select_team name (teams gs))
  /\ (index_increasing gs -> chronological gs ->
      ordered_by_date (select_team name (teams gs))).
Proof.
  split.
  - apply StronglySorted_filter, teams_ordered_by_key.
  - intros Hi Hc. rewrite (teams_increasing gs Hi).
    now apply StronglySorted_filter, appearances_ordered_by_date.
Qed.

Lemma C5_order_of_partitions_witness :
  index_increasing bulls_games /\ chronological bulls_games
  /\ ordered_by_date (select_team "Chicago Bulls" (teams bulls_games)).
Proof.
  assert (index_increasing bulls_games) as Hi by (repeat constructor).
  assert (chronological bulls_games) as Hc by (repeat constructor).
  split; [exact Hi |]. split; [exact Hc |].
  exact (proj2 (C5_order_of_partitions bulls_games "Chicago Bulls") Hi Hc).
Defined.

(* ------------------------------------------------------------------ *)
(** ** The Rest-Days Calculator *)

Lemma days_minus_1_none (d : option Z) : days_minus_1 d None = None.
Proof. now destruct d. Qed.

Lemma team_is_eq (name : string) (r : TeamRow) :
  team_is name r = true <-> team r = Some name.
Proof.
  unfold team_is. destruct (team r) as [t |].
  - rewrite String.eqb_eq. split; congruence.
  - split; congruence.
Qed.

Lemma same_team_is (name : string) (r p : TeamRow) :
  team r = Some name -> same_team r p = team_is name p.
Proof.
  intros E. unfold same_team, team_is. rewrite E.
  destruct (team p); auto. apply String.eqb_sym.
Qed.

Lemma find_ext {A : Type} (f g : A -> bool) (l : list A) :
  (forall x, f x = g x) -> find f l = find g l.
Proof.
  intros H. induction l as [| x l IH]; simpl; auto.
  rewrite H, IH. reflexivity.
Qed.

Lemma groupby_diff_length (seen df : list TeamRow) :
  List.length (groupby_diff seen df) = List.length df.
Proof.
  revert seen. induction df as [| r df IH]; intros seen; simpl; auto.
Qed.

Lemma rest_length (df : list TeamRow) :
  List.length (rest df) = List.length df.
Proof. apply groupby_diff_length. Qed.

Lemma add_rest_fst (df : list TeamRow) : map fst (add_rest df) = df.
Proof.
  unfold add_rest, rest. generalize (@nil TeamRow) as seen.
  induction df as [| r df IH]; intros seen; simpl; auto.
  now rewrite IH.
Qed.

Lemma add_rest_snd (df : list TeamRow) : map snd (add_rest df) = rest df.
Proof.
  unfold add_rest, rest. generalize (@nil TeamRow) as seen.
  induction df as [| r df IH]; intros seen; cbn; auto.
  now rewrite IH.
Qed.

(** Group by group, the modelled [rest] is the notebook's expression for one
    team: the rows of a team carry [diff().dt.days - 1] of that team's dates,
    in frame order. *)
Lemma groupby_diff_partition (name : string) (seen df : list TeamRow) :
  let part := team_partition name (combine df (groupby_diff seen df)) in
  map fst part = select_team name df
  /\ map snd part
     = diff_from (prev_date name seen) (map l_date (select_team name df)).
Proof.
  revert seen. induction df as [| r df IH]; intros seen; cbn zeta.
  - split; reflexivity.
  - specialize (IH (r :: seen)). cbn zeta in IH. destruct IH as [IH1 IH2].
    unfold team_partition, select_team in *. cbn [combine groupby_diff filter fst].
    destruct (team_is name r) eqn:E.
    + cbn [map fst snd diff_from]. rewrite IH1, IH2.
      unfold prev_date at 1. cbn [find]. rewrite E.
      apply team_is_eq in E.
      rewrite (find_ext _ _ seen (fun p => same_team_is name r p E)).
      split; [reflexivity |]. f_equal.
      unfold prev_date. destruct (find (team_is name) seen); auto.
      symmetry. apply days_minus_1_none.
    + rewrite IH1, IH2. unfold prev_date. cbn [find]. rewrite E.
      split; reflexivity.
Qed.

Lemma rest_partition (name : string) (df : list TeamRow) :
  map fst (team_partition name (add_rest df)) = select_team name df
  /\ map snd (team_partition name (add_rest df))
     = diff_days_minus_1 (map l_date (select_team name df)).
Proof. apply (groupby_diff_partition name [] df). Qed.

(** On the rows of Chicago the modelled [rest] is the notebook's
    [bulls['date'].diff().dt.days - 1]. *)
Lemma rest_of_bulls (df : list TeamRow) :
  map snd (team_partition "Chicago Bulls" (add_rest df)) = bulls_rest df.
Proof. apply rest_partition. Qed.

Lemma diff_from_nth (prev : option Z) (dates : list (option Z)) (i : nat)
  (p d : option Z) :
  nth_error dates i = Some p -> nth_error dates (S i) = Some d ->
  nth_error (diff_from prev dates) (S i) = Some (days_minus_1 d p).
Proof.
  revert prev i. induction dates as [| a dates IH]; intros prev i Hp Hd.
  - destruct i; discriminate.
  - destruct i as [| i].
    + simpl in Hp. injection Hp as ->.
      destruct dates as [| b dates]; [discriminate |].
      simpl in Hd. injection Hd as ->. reflexivity.
    + simpl in Hp. cbn [diff_from nth_error]. cbn [nth_error] in Hd.
      now apply IH.
Qed.

Lemma nth_error_map_eq {A B : Type} (f : A -> B) (l : list A) (i : nat)
  (x : A) :
  nth_error l i = Some x -> nth_error (map f l) i = Some (f x).
Proof. intros H. now rewrite nth_error_map, H. Qed.

(** C1. The calculator gives every row of the frame a rest value, and the
    rows of a team with their values are that team's appearances, in the
    order of the frame (date order, for a partition sorted by date).  The
    first appearance gets a missing rest value, not zero, and every later
    appearance gets the days between its date and the date of the appearance
    just before it, minus one.  Chicago playing on 2015-10-27 and next on
    2015-10-30 gets rest 2 for the second game. *)
Theorem C1_rest_days (df : list TeamRow) (name : string) :
  let part := team_partition name (add_rest df) in
  map fst (add_rest df) = df
  /\ map snd (add_rest df) = rest df
  /\ List.length (rest df) = List.length df
  /\ map fst part = select_team name df
  /\ (forall x, nth_error part 0 = Some x -> snd x = None /\ snd x <> Some 0)
  /\ (forall i p x,
        nth_error part i = Some p -> nth_error part (S i) = Some x ->
        snd x = days_minus_1 (l_date (fst x)) (l_date (fst p)))
  /\ (forall i p x dp dx,
        nth_error part i = Some p -> nth_error part (S i) = Some x ->
        l_date (fst p) = Some dp -> l_date (fst x) = Some dx ->
        snd x = Some (dx - dp - 1))
  /\ team_partition "Chicago Bulls" (combine (teams bulls_games)
                                       (rest (teams bulls_games)))
     = [ (mkLong 1%nat (Some (days_from_civil 2015 10 27)) var_home_team
            (Some "Chicago Bulls"%string), None);
         (mkLong 2%nat (Some (days_from_civil 2015 10 30)) var_away_team
            (Some "Chicago Bulls"%string), Some 2) ].
Proof.
  cbn zeta. destruct (rest_partition name df) as [Hf Hs].
  set (part := team_partition name (add_rest df)) in *.
  assert (forall i p x,
             nth_error part i = Some p -> nth_error part (S i) = Some x ->
             snd x = days_minus_1 (l_date (fst x)) (l_date (fst p))) as Hstep.
  { intros i p x Hp Hx.
    pose proof (nth_error_map_eq snd _ _ _ Hx) as Hr. rewrite Hs in Hr.
    rewrite <- Hf, map_map in Hr.
    unfold diff_days_minus_1 in Hr.
    rewrite (diff_from_nth None _ i (l_date (fst p)) (l_date (fst x))) in Hr.
    + congruence.
    + now apply (nth_error_map_eq (fun y => l_date (fst y))).
    + now apply (nth_error_map_eq (fun y => l_date (fst y))). }
  split; [apply add_rest_fst |].
  split; [apply add_rest_snd |].
  split; [apply rest_length |].
  split; [exact Hf |].
  split; [| split; [exact Hstep | split]].
  - intros x Hx.
    apply (nth_error_map_eq snd) in Hx. rewrite Hs in Hx.
    rewrite <- Hf in Hx.
    destruct part as [| y part']; [discriminate |].
    cbn in Hx. rewrite days_minus_1_none in Hx.
    injection Hx as <-. split; congruence.
  - intros i p x dp dx Hp Hx Edp Edx.
    rewrite (Hstep i p x Hp Hx), Edp, Edx. reflexivity.
  - reflexivity.
Qed.

Lemma C1_rest_days_witness :
  snd (mkLong 2%nat (Some (days_from_civil 2015 10 30)) var_away_team
         (Some "Chicago Bulls"%string), Some 2)
  = Some (days_from_civil 2015 10 30 - days_from_civil 2015 10 27 - 1).
Proof.
  apply (proj1 (proj2 (proj2 (proj2 (proj2 (proj2 (proj2
           (C1_rest_days (teams bulls_games) "Chicago Bulls")))))))
           0%nat
           (mkLong 1%nat (Some (days_from_civil 2015 10 27)) var_home_team
              (Some "Chicago Bulls"%string), None));
    reflexivity.
Defined.

Lemma diff_from_length (prev : option Z) (dates : list (option Z)) :
  List.length (diff_from prev dates) = List.length dates.
Proof.
  revert prev. induction dates as [| d dates IH]; intros prev; simpl; auto.
Qed.

Lemma diff_from_defined (d : Z) (dates : list (option Z)) :
  Forall (fun x => x <> None) dates ->
  Forall (fun r => isSome r = true) (diff_from (Some d) dates).
Proof.
  intros H. revert d. induction H as [| x dates Hx _ IH]; intros d; simpl.
  - constructor.
  - destruct x as [x |]; [| congruence].
    constructor; [reflexivity | apply IH].
Qed.

Lemma filter_all {A : Type} (f : A -> bool) (l : list A) :
  Forall (fun x => f x = true) l -> filter f l = l.
Proof.
  induction 1 as [| x l Hx _ IH]; simpl; auto.
  now rewrite Hx, IH.
Qed.

Lemma filter_none {A : Type} (f : A -> bool) (l : list A) :
  Forall (fun x => f x = true) l -> filter (fun x => negb (f x)) l = [].
Proof.
  induction 1 as [| x l Hx _ IH]; simpl; auto.
  now rewrite Hx, IH.
Qed.

Lemma filter_snd_length {A B : Type} (f : B -> bool) (l : list (A * B)) :
  List.length (filter (fun x => f (snd x)) l)
  = List.length (filter f (map snd l)).
Proof.
  induction l as [| x l IH]; simpl; auto.
  destruct (f (snd x)); simpl; auto.
Qed.

(** C4, as stated, fails: the loader keeps a line whose [Date] field is empty
    when four other fields are present, and the date of that game is NaT.
    Chicago then has N = 2 appearances and no defined rest value, where the
    claim gives N - 1 = 1: the difference with a missing date is missing. *)
Lemma C4_undated_appearance :
  games sample_to_datetime undated_csv = Some undated_games
  /\ List.length (select_team "Chicago Bulls" (teams undated_games)) = 2%nat
  /\ map snd (team_partition "Chicago Bulls" (teams_rest undated_games))
     = [None; None]
  /\ List.length
       (filter (fun x => isSome (snd x))
          (team_partition "Chicago Bulls" (teams_rest undated_games)))
     <> (2 - 1)%nat
  /\ List.length
       (filter (fun x => negb (isSome (snd x)))
          (team_partition "Chicago Bulls" (teams_rest undated_games)))
     <> 1%nat.
Proof.
  split; [reflexivity |]. split; [reflexivity |]. split; [reflexivity |].
  split; vm_compute; discriminate.
Qed.

(** C4, amended. The calculator fails on no input: it returns one value per
    row, and the rows of a team are its N appearances.  For N >= 1 the first
    appearance has a missing rest value, so at most N-1 values are defined.
    When every appearance of the team carries a date, exactly N-1 rest values
    are defined and exactly one is missing, the one of the first appearance;
    with N = 1 there is no defined rest value. *)
Theorem C4_rest_counts (df : list TeamRow) (name : string) :
  let apps := select_team name df in
  let part := team_partition name (add_rest df) in
  List.length (rest df) = List.length df
  /\ map fst part = apps
  /\ ((1 <= List.length apps)%nat ->
      (exists x, nth_error part 0 = Some x /\ snd x = None)
      /\ (List.length (filter (fun x => isSome (snd x)) part)
          <= List.length apps - 1)%nat)
  /\ ((1 <= List.length apps)%nat ->
      Forall (fun t => l_date t <> None) apps ->
      List.length (filter (fun x => isSome (snd x)) part)
      = (List.length apps - 1)%nat
      /\ List.length (filter (fun x => negb (isSome (snd x))) part) = 1%nat
      /\ (List.length apps = 1%nat ->
          filter (fun x => isSome (snd x)) part = [])).
Proof.
  cbn zeta. destruct (rest_partition name df) as [Hf Hs].
  split; [apply rest_length |]. split; [exact Hf |].
  rewrite <- Hf in *. clear Hf.
  remember (team_partition name (add_rest df)) as part eqn:Epart.
  clear Epart. rewrite map_map in Hs. rewrite length_map.
  destruct part as [| x part'].
  { split; simpl; intros; lia. }
  unfold RestRow in *.
  unfold diff_days_minus_1 in Hs. cbn [map diff_from] in Hs.
  rewrite days_minus_1_none in Hs.
  assert (snd x = None) as Ex by (injection Hs; auto).
  assert (map snd part'
          = diff_from (l_date (fst x)) (map (fun y => l_date (fst y)) part'))
    as Hs' by (injection Hs; auto).
  clear Hs.
  assert (filter (fun y : TeamRow * option Z => isSome (snd y)) (x :: part')
          = filter (fun y : TeamRow * option Z => isSome (snd y)) part') as E1
    by (cbn [filter]; now rewrite Ex).
  assert (filter (fun y : TeamRow * option Z => negb (isSome (snd y))) (x :: part')
          = x :: filter (fun y : TeamRow * option Z => negb (isSome (snd y))) part') as E2
    by (cbn [filter]; now rewrite Ex).
  rewrite E1, E2. clear E1 E2.
  split.
  - intros _. split; [exists x; split; auto |].
    cbn [List.length]. rewrite Nat.sub_succ, Nat.sub_0_r.
    apply filter_length_le.
  - intros _ Hd. cbn [map] in Hd.
    apply Forall_cons_iff in Hd. destruct Hd as [Hx Hd].
    unfold RestRow, TeamRow in *.
    destruct (l_date (fst x)) as [d |] eqn:Ed; [| now elim Hx].
    assert (Forall (fun r => isSome r = true) (map snd part')) as Hall.
    { rewrite Hs'. apply diff_from_defined. apply Forall_forall. intros y Hy.
      apply in_map_iff in Hy. destruct Hy as [z [<- Hz]].
      rewrite Forall_forall in Hd. apply Hd.
      apply in_map_iff. exists z. split; auto. }
    cbn [List.length].
    rewrite (filter_snd_length isSome),
      (filter_snd_length (fun r => negb (isSome r))).
    rewrite (filter_all _ _ Hall), (filter_none _ _ Hall), length_map.
    cbn [List.length]. rewrite Nat.sub_succ, Nat.sub_0_r.
    split; [reflexivity |]. split; [reflexivity |].
    intros E. destruct part'; [reflexivity | discriminate E].
Qed.

Lemma C4_rest_counts_witness :
  List.length
    (filter (fun x => isSome (snd x))
       (team_partition "Chicago Bulls" (teams_rest bulls_games)))
  = (List.length (select_team "Chicago Bulls" (teams bulls_games)) - 1)%nat
  /\ filter (fun x => isSome (snd x))
       (team_partition "Atlanta Hawks"
          (add_rest
             [mkLong 0%nat (Some (days_from_civil 2015 10 27))
                var_home_team (Some "Atlanta Hawks"%string)])) = [].
Proof.
  split.
  - apply (proj2 (proj2 (proj2
             (C4_rest_counts (teams bulls_games) "Chicago Bulls")))).
    + vm_compute. lia.
    + vm_compute. repeat constructor; discriminate.
  - apply (proj2 (proj2 (proj2
             (C4_rest_counts
                [mkLong 0%nat (Some (days_from_civil 2015 10 27))
                   var_home_team (Some "Atlanta Hawks"%string)]
                "Atlanta Hawks")))).
    + vm_compute. lia.
    + vm_compute. repeat constructor; discriminate.
    + reflexivity.
Defined.

(* ------------------------------------------------------------------ *)
(** ** The Re-widener *)

Lemma by_game_keys (df : list RestRow) :
  map w_key (bg_rows (by_game df))
  = sort_values (fun k => k)
      (nodup key_eq_dec (map (fun x => long_key (fst x)) (filter observed df))).
Proof.
  unfold by_game, pivot_table. cbn [bg_rows pv_rows].
  rewrite map_map. cbn [w_key]. apply map_id.
Qed.

Lemma by_game_key_In (df : list RestRow) (k : Key) :
  In k (map w_key (bg_rows (by_game df)))
  <-> exists x, In x df /\ observed x = true /\ long_key (fst x) = k.
Proof.
  rewrite by_game_keys, sort_values_In, nodup_In, in_map_iff.
  split.
  - intros [x [E H]]. apply filter_In in H. exists x. tauto.
  - intros [x [H [O E]]]. exists x. split; auto. apply filter_In. auto.
Qed.

Lemma by_game_keys_NoDup (df : list RestRow) :
  NoDup (map w_key (bg_rows (by_game df))).
Proof.
  rewrite by_game_keys.
  eapply Permutation_NoDup.
  - apply Permutation_sym, sort_values_perm.
  - apply NoDup_nodup.
Qed.

(** C8. In the output of the Re-widener every game key occurs at most once,
    whatever the appearance table; the keys that occur are exactly the keys of
    the appearances that carry a date and a rest value. *)
Theorem C8_by_game_one_row_per_key (df : list RestRow) :
  NoDup (map w_key (bg_rows (by_game df)))
  /\ (forall k, In k (map w_key (bg_rows (by_game df)))
                <-> exists x, In x df /\ observed x = true
                              /\ long_key (fst x) = k).
Proof.
  split.
  - apply by_game_keys_NoDup.
  - apply by_game_key_In.
Qed.

Lemma by_game_row_In (df : list RestRow) (w : WideRest) :
  In w (bg_rows (by_game df)) ->
  In (w_key w) (map w_key (bg_rows (by_game df)))
  /\ forall c, cell c w = mean (group_values (w_key w) c df).
Proof.
  intros H. split; [now apply in_map |].
  unfold by_game, pivot_table in H. cbn [bg_rows pv_rows] in H.
  apply in_map_iff in H. destruct H as [k [<- _]].
  intros []; reflexivity.
Qed.

Lemma by_game_row_of_key (df : list RestRow) (k : Key) :
  In k (map w_key (bg_rows (by_game df))) ->
  In (mkWideRest k (mean (group_values k var_away_team df))
        (mean (group_values k var_home_team df)))
    (bg_rows (by_game df)).
Proof.
  intros H. rewrite by_game_keys in H.
  unfold by_game, pivot_table. cbn [bg_rows pv_rows].
  apply in_map_iff. exists k. split; auto.
Qed.

Lemma remelt_In (bg : ByGame) (i : nat) (d : option Z) (c : Role)
  (v : option Q) :
  In (mkLong i d c v) (remelt bg)
  <-> exists w, In w (bg_rows bg) /\ w_key w = (i, d) /\ cell c w = v.
Proof.
  unfold remelt. rewrite melt_In. split.
  - intros [w [Hw [E | E]]]; exists w; split; auto;
      injection E as -> -> -> ->; split; auto; now destruct (w_key w).
  - intros [w [Hw [Ek Ev]]]. exists w. split; auto.
    rewrite Ek. cbn [fst snd]. destruct c; cbn [cell] in Ev; subst v; auto.
Qed.

Lemma lookup_rest_Some (df : list RestRow) (k : Key) (w : WideRest) :
  lookup_rest k (bg_rows (by_game df)) = Some w ->
  w_key w = k /\ In w (bg_rows (by_game df)).
Proof.
  unfold lookup_rest. intros H. apply find_some in H.
  destruct H as [H E]. apply key_eqb_eq in E. auto.
Qed.

Lemma lookup_rest_None (df : list RestRow) (k : Key) :
  lookup_rest k (bg_rows (by_game df)) = None ->
  ~ In k (map w_key (bg_rows (by_game df))).
Proof.
  unfold lookup_rest. intros H Hin.
  apply in_map_iff in Hin. destruct Hin as [w [E Hw]].
  pose proof (find_none _ _ H w Hw) as F. cbn beta in F.
  rewrite E, key_eqb_refl in F. discriminate.
Qed.

(** *** Means of one value *)

Lemma Qred_inject_Z (z : Z) : Qred (z # 1) = inject_Z z.
Proof.
  unfold Qred, inject_Z.
  pose proof (Z.ggcd_gcd z 1) as G.
  pose proof (Z.ggcd_correct_divisors z 1) as D.
  destruct (Z.ggcd z 1) as [g [a b]]. cbn [fst snd] in *.
  rewrite Z.gcd_1_r in G. subst g. destruct D as [Da Db].
  rewrite Z.mul_1_l in Da, Db. subst a b. reflexivity.
Qed.

Lemma mean_one (z : Z) : mean [z] = Some (inject_Z z).
Proof.
  unfold mean, sum_Z. cbn [fold_right List.length Pos.of_nat].
  rewrite Z.add_0_r. now rewrite Qred_inject_Z.
Qed.

Lemma mean_option (r : option Z) :
  mean (match r with Some z => [z] | None => [] end) = option_map inject_Z r.
Proof. destruct r; [apply mean_one | reflexivity]. Qed.

(** *** One row per game and side *)

Lemma NoDup_map_eq {A B : Type} (f : A -> B) (l : list A) (x y : A) :
  NoDup (map f l) -> In x l -> In y l -> f x = f y -> x = y.
Proof.
  induction l as [| a l IH]; simpl; intros N Hx Hy E; [tauto |].
  apply NoDup_cons_iff in N. destruct N as [Na N].
  destruct Hx as [-> | Hx], Hy as [-> | Hy]; auto.
  - exfalso. apply Na. rewrite E. now apply in_map.
  - exfalso. apply Na. rewrite <- E. now apply in_map.
Qed.

Lemma appearances_sides_NoDup (gs : list Game) :
  index_increasing gs ->
  NoDup (map (fun t : TeamRow => (l_game_id t, home_away t))
           (flat_map appearances gs)).
Proof.
  induction gs as [| g gs IH]; intros H; simpl.
  - constructor.
  - apply index_increasing_tail in H. destruct H as [Hs Hlt].
    assert (forall c, ~ In (game_id g, c)
                        (map (fun t : TeamRow => (l_game_id t, home_away t))
                           (flat_map appearances gs))) as Hnot.
    { intros c Hin. apply in_map_iff in Hin. destruct Hin as [t [E Ht]].
      apply in_flat_map in Ht. destruct Ht as [g' [Hg' Ht]].
      specialize (Hlt g' Hg').
      simpl in Ht. destruct Ht as [<- | [<- | []]];
        injection E as E _; simpl in E; lia. }
    constructor.
    + simpl. intros [E | Hin]; [discriminate | now apply Hnot in Hin].
    + constructor; [apply Hnot | now apply IH].
Qed.

Lemma teams_rest_sides_NoDup (gs : list Game) :
  index_increasing gs -> NoDup (map side_of (teams_rest gs)).
Proof.
  intros H. unfold teams_rest.
  replace (map side_of (add_rest (teams gs)))
    with (map (fun t : TeamRow => (l_game_id t, home_away t))
            (map fst (add_rest (teams gs))))
    by (rewrite map_map; reflexivity).
  rewrite add_rest_fst, (teams_increasing gs H).
  now apply appearances_sides_NoDup.
Qed.

Lemma teams_rest_row (gs : list Game) (t : TeamRow) :
  In t (teams gs) -> exists r, In (t, r) (teams_rest gs).
Proof.
  intros H. unfold teams_rest.
  rewrite <- (add_rest_fst (teams gs)) in H.
  apply in_map_iff in H. destruct H as [[t' r] [E H]].
  simpl in E. subst t'. now exists r.
Qed.

Lemma teams_rest_game (gs : list Game) (x : RestRow) :
  In x (teams_rest gs) ->
  exists g, In g gs /\ long_key (fst x) = game_key g
            /\ In (fst x) (appearances g).
Proof.
  intros H. assert (In (fst x) (teams gs)) as Ht.
  { rewrite <- (add_rest_fst (teams gs)). now apply in_map. }
  eapply Permutation_in in Ht; [| apply teams_perm].
  apply in_flat_map in Ht. destruct Ht as [g [Hg Ht]].
  exists g. split; auto. split; auto.
  simpl in Ht. destruct Ht as [<- | [<- | []]]; reflexivity.
Qed.

(** A rest value is present only on a row that has a date. *)
Lemma groupby_diff_date (seen df : list TeamRow) (t : TeamRow) (r : Z) :
  In (t, Some r) (combine df (groupby_diff seen df)) -> l_date t <> None.
Proof.
  revert seen. induction df as [| a df IH]; intros seen H; simpl in H.
  - tauto.
  - destruct H as [E | H]; [| now apply IH in H].
    injection E as -> E.
    destruct (find (same_team t) seen); [| discriminate].
    destruct (l_date t); [discriminate | discriminate].
Qed.

Lemma rest_defined_observed (df : list TeamRow) (t : TeamRow) (r : Z) :
  In (t, Some r) (add_rest df) -> observed (t, Some r) = true.
Proof.
  intros H. apply groupby_diff_date in H.
  unfold observed. cbn [fst snd]. now destruct (l_date t).
Qed.

Lemma flat_map_nil {A B : Type} (f : A -> list B) (l : list A) :
  (forall y, In y l -> f y = []) -> flat_map f l = [].
Proof.
  induction l as [| a l IH]; intros H; simpl; auto.
  rewrite (H a) by now left. apply IH. intros y Hy. apply H. now right.
Qed.

(** Selecting by a test that only the side of [x] passes, in a frame with one
    row per side, selects [x] alone. *)
Lemma flat_map_unique {A B C : Type} (side : A -> C) (m : A -> bool)
  (f : A -> list B) (l : list A) (x : A) :
  NoDup (map side l) -> In x l -> m x = true ->
  (forall y, In y l -> m y = true -> side y = side x) ->
  flat_map (fun y => if m y then f y else []) l = f x.
Proof.
  induction l as [| a l IH]; intros N Hx Mx Hm; [destruct Hx |].
  cbn [map] in N. apply NoDup_cons_iff in N. destruct N as [Na N].
  cbn [flat_map]. destruct Hx as [-> | Hx].
  - rewrite Mx, flat_map_nil; [apply app_nil_r |].
    intros y Hy. destruct (m y) eqn:My; auto.
    exfalso. apply Na. rewrite <- (Hm y (or_intror Hy) My).
    now apply in_map.
  - destruct (m a) eqn:Ma.
    + exfalso. apply Na. rewrite (Hm a (or_introl eq_refl) Ma).
      now apply in_map.
    + cbn [app]. apply IH; auto.
      intros y Hy. apply Hm. now right.
Qed.

Lemma find_unique {A C : Type} (side : A -> C) (m : A -> bool)
  (l : list A) (x : A) :
  NoDup (map side l) -> In x l -> m x = true ->
  (forall y, In y l -> m y = true -> side y = side x) ->
  find m l = Some x.
Proof.
  intros N Hx Mx Hm.
  destruct (find m l) as [y |] eqn:F.
  - apply find_some in F. destruct F as [Hy My].
    f_equal. apply (NoDup_map_eq side l); auto.
  - now rewrite (find_none _ _ F x Hx) in Mx.
Qed.

Section UniqueSides.
Variable df : list RestRow.
Hypothesis sides_NoDup : NoDup (map side_of df).

Lemma group_values_unique (x : RestRow) :
  In x df ->
  group_values (long_key (fst x)) (home_away (fst x)) df
  = match snd x with Some z => [z] | None => [] end.
Proof.
  intros Hx. unfold group_values.
  apply (flat_map_unique side_of
           (fun y => key_eqb (long_key (fst y)) (long_key (fst x))
                     && role_eqb (home_away (fst y)) (home_away (fst x)))
           (fun y : RestRow =>
              match snd y with Some z => [z] | None => [] end) df x);
    auto.
  - rewrite key_eqb_refl. now apply role_eqb_eq.
  - intros y Hy E. apply andb_true_iff in E. destruct E as [Ek Er].
    apply key_eqb_eq in Ek. apply role_eqb_eq in Er.
    unfold side_of. f_equal; auto.
    unfold long_key in Ek. congruence.
Qed.

Lemma rest_of_unique (x : RestRow) :
  In x df -> rest_of df (l_game_id (fst x)) (home_away (fst x)) = snd x.
Proof.
  intros Hx. unfold rest_of.
  rewrite (find_unique side_of _ df x); auto.
  - rewrite Nat.eqb_refl. now apply role_eqb_eq.
  - intros y Hy E. apply andb_true_iff in E. destruct E as [Ek Er].
    apply Nat.eqb_eq in Ek. apply role_eqb_eq in Er.
    unfold side_of. now f_equal.
Qed.

Lemma side_defined_unique (x : RestRow) :
  In x df ->
  side_defined df (long_key (fst x)) (home_away (fst x)) = true ->
  exists r, snd x = Some r.
Proof.
  intros Hx H. unfold side_defined in H. apply existsb_exists in H.
  destruct H as [y [Hy E]].
  apply andb_true_iff in E. destruct E as [E Ed].
  apply andb_true_iff in E. destruct E as [Ek Er].
  apply key_eqb_eq in Ek. apply role_eqb_eq in Er.
  assert (y = x) as ->.
  { apply (NoDup_map_eq side_of df); auto.
    unfold side_of. f_equal; auto. unfold long_key in Ek.
    now injection Ek. }
  destruct x as [t [r |]]; cbn [snd isSome] in *;
    [now exists r | discriminate].
Qed.
End UniqueSides.

(** C2. On a table of games with increasing index, for every appearance of a
    game whose away and home rest values are both defined, re-widening the
    rest-annotated appearances and melting the wide table again yields, under
    that appearance's key and side, the appearance's own rest value and
    nothing else. *)
Theorem C2_round_trip (gs : list Game) (x : RestRow) :
  index_increasing gs ->
  In x (teams_rest gs) ->
  side_defined (teams_rest gs) (long_key (fst x)) var_away_team = true ->
  side_defined (teams_rest gs) (long_key (fst x)) var_home_team = true ->
  exists r, snd x = Some r
    /\ forall v,
         In (mkLong (l_game_id (fst x)) (l_date (fst x)) (home_away (fst x)) v)
           (remelt (by_game (teams_rest gs)))
         <-> v = Some (inject_Z r).
Proof.
  intros Hi Hx Ha Hh.
  pose proof (teams_rest_sides_NoDup gs Hi) as N.
  assert (side_defined (teams_rest gs) (long_key (fst x)) (home_away (fst x))
          = true) as Hc by (destruct (home_away (fst x)); assumption).
  destruct (side_defined_unique _ N x Hx Hc) as [r Er].
  exists r. split; [exact Er |].
  assert (forall w, In w (bg_rows (by_game (teams_rest gs))) ->
            w_key w = long_key (fst x) ->
            cell (home_away (fst x)) w = Some (inject_Z r)) as Hcell.
  { intros w Hw Ek. apply by_game_row_In in Hw. destruct Hw as [_ Hw].
    rewrite Hw, Ek, (group_values_unique _ N x Hx), Er. apply mean_one. }
  assert (In (long_key (fst x)) (map w_key (bg_rows (by_game (teams_rest gs)))))
    as Hk.
  { apply by_game_key_In. exists x. split; [exact Hx |]. split; auto.
    destruct x as [t r']. cbn [snd] in Er. subst r'.
    now apply (rest_defined_observed (teams gs)). }
  intros v. rewrite remelt_In. split.
  - intros [w [Hw [Ek Ev]]]. rewrite <- Ev. now apply Hcell.
  - intros ->. apply by_game_row_of_key in Hk.
    eexists. split; [exact Hk |]. split; [reflexivity |].
    now apply (Hcell _ Hk).
Qed.

Lemma C2_round_trip_witness :
  exists r,
    Some 1 = Some r
    /\ forall v,
         In (mkLong 3%nat (Some (days_from_civil 2015 11 1)) var_away_team v)
           (remelt (by_game (teams_rest bulls_games)))
         <-> v = Some (inject_Z r).
Proof.
  apply (C2_round_trip bulls_games
           (mkLong 3%nat (Some (days_from_civil 2015 11 1)) var_away_team
              (Some "Detroit Pistons"%string), Some 1)).
  - repeat constructor.
  - vm_compute. do 4 right. left. reflexivity.
  - reflexivity.
  - reflexivity.
Defined.

(* ------------------------------------------------------------------ *)
(** ** The rest-augmented game table *)

Lemma index_increasing_keys (gs : list Game) :
  index_increasing gs -> NoDup (map game_key gs).
Proof.
  induction gs as [| g gs IH]; intros H; simpl.
  - constructor.
  - apply index_increasing_tail in H. destruct H as [Hs Hlt].
    constructor; [| now apply IH].
    intros Hin. apply in_map_iff in Hin. destruct Hin as [g' [E Hg']].
    specialize (Hlt g' Hg'). unfold game_key in E.
    injection E as E _. lia.
Qed.

(** The labels of [by_game] are labels of [games]: the outer join adds no
    row. *)
Lemma by_game_keys_of_games (gs : list Game) (w : WideRest) :
  In w (bg_rows (by_game (teams_rest gs))) ->
  existsb (key_eqb (w_key w)) (map game_key gs) = true.
Proof.
  intros H. apply (in_map w_key) in H. apply by_game_key_In in H.
  destruct H as [x [Hx [_ E]]].
  apply teams_rest_game in Hx. destruct Hx as [g [Hg [Ek _]]].
  apply existsb_exists. exists (game_key g). split.
  - now apply in_map.
  - apply key_eqb_eq. congruence.
Qed.

Lemma filter_nil {A : Type} (f : A -> bool) (l : list A) :
  (forall x, In x l -> f x = false) -> filter f l = [].
Proof.
  induction l as [| a l IH]; intros H; simpl; auto.
  rewrite (H a) by now left. apply IH. intros x Hx. apply H. now right.
Qed.

Lemma games_rest_frame (gs : list Game) :
  gr_columns (games_rest gs) = bg_columns (by_game (teams_rest gs))
  /\ gr_rows (games_rest gs)
     = filter (complete (gr_columns (games_rest gs)))
         (map (join_left (by_game (teams_rest gs))) gs).
Proof.
  unfold games_rest, concat_columns, dropna. cbn [gr_columns gr_rows].
  split; auto.
  rewrite (filter_nil _ (bg_rows (by_game (teams_rest gs)))).
  - now rewrite app_nil_r.
  - intros w Hw. now rewrite (by_game_keys_of_games gs w Hw).
Qed.

Lemma join_left_game (bg : ByGame) (g : Game) : gr_game (join_left bg g) = g.
Proof. unfold join_left. now destruct (lookup_rest _ _). Qed.

(** The rest cells of a joined row are the rest values of the game's two
    appearances; a missing one stays missing. *)
Lemma join_left_rest (gs : list Game) (g : Game) :
  index_increasing gs -> In g gs ->
  join_left (by_game (teams_rest gs)) g
  = mkGameRest g
      (option_map inject_Z (rest_of (teams_rest gs) (game_id g) var_away_team))
      (option_map inject_Z (rest_of (teams_rest gs) (game_id g) var_home_team)).
Proof.
  intros Hi Hg.
  pose proof (teams_rest_sides_NoDup gs Hi) as N.
  assert (forall c v, In (mkLong (game_id g) (date g) c v) (teams gs) ->
            exists r, In (mkLong (game_id g) (date g) c v, r) (teams_rest gs)
                      /\ rest_of (teams_rest gs) (game_id g) c = r
                      /\ group_values (game_key g) c (teams_rest gs)
                         = match r with Some z => [z] | None => [] end
                      /\ (In (game_key g)
                            (map w_key (bg_rows (by_game (teams_rest gs))))
                          \/ r = None)) as Hside.
  { intros c v Ht. destruct (teams_rest_row gs _ Ht) as [r Hr].
    exists r. split; [exact Hr |]. split; [| split].
    - apply (rest_of_unique _ N _ Hr).
    - apply (group_values_unique _ N _ Hr).
    - destruct r as [r |]; [left | now right].
      apply by_game_key_In. eexists. split; [exact Hr |].
      split; [| reflexivity].
      now apply (rest_defined_observed (teams gs)). }
  destruct (teams_has_appearances gs g Hg) as [Ha Hh].
  destruct (Hside _ _ Ha) as [ra [_ [Era [Ga Ka]]]].
  destruct (Hside _ _ Hh) as [rh [_ [Erh [Gh Kh]]]].
  rewrite Era, Erh. unfold join_left.
  destruct (lookup_rest (game_key g) (bg_rows (by_game (teams_rest gs))))
    as [w |] eqn:L.
  - apply lookup_rest_Some in L. destruct L as [Ek Hw].
    apply by_game_row_In in Hw. destruct Hw as [_ Hw].
    pose proof (Hw var_away_team) as Wa. pose proof (Hw var_home_team) as Wh.
    cbn [cell] in Wa, Wh. rewrite Wa, Wh, Ek, Ga, Gh, !mean_option.
    reflexivity.
  - apply lookup_rest_None in L.
    destruct Ka as [Ka | ->]; [contradiction |].
    destruct Kh as [Kh | ->]; [contradiction |].
    reflexivity.
Qed.

Lemma games_rest_row (gs : list Game) (r : GameRest) :
  In r (gr_rows (games_rest gs)) ->
  In (gr_game r) gs
  /\ r = join_left (by_game (teams_rest gs)) (gr_game r)
  /\ complete (gr_columns (games_rest gs)) r = true.
Proof.
  intros Hr. destruct (games_rest_frame gs) as [_ E].
  rewrite E in Hr. apply filter_In in Hr. destruct Hr as [Hr C].
  apply in_map_iff in Hr. destruct Hr as [g [<- Hg]].
  rewrite join_left_game. auto.
Qed.

(** When [by_game] has the column of a side, the games kept in [games_rest]
    are games whose appearance on that side has a rest value, and the cell is
    that value. *)
Lemma games_rest_side_defined (gs : list Game) (r : GameRest) (c : Role) :
  index_increasing gs -> In r (gr_rows (games_rest gs)) ->
  In (rename_column c) (gr_columns (games_rest gs)) ->
  exists z, rest_of (teams_rest gs) (game_id (gr_game r)) c = Some z
            /\ rest_value (rename_column c) r = Some (inject_Z z).
Proof.
  intros Hi Hr Hc.
  destruct (games_rest_row gs r Hr) as [Hg [E C]].
  unfold complete in C. apply andb_true_iff in C. destruct C as [_ C].
  rewrite forallb_forall in C. specialize (C _ Hc).
  rewrite (join_left_rest gs _ Hi Hg) in E.
  destruct (rest_of (teams_rest gs) (game_id (gr_game r)) c) as [z |] eqn:R.
  - exists z. split; auto.
    rewrite E. destruct c; cbn [rename_column rest_value gr_away_rest
                                  gr_home_rest gr_game] in *;
      rewrite R; reflexivity.
  - exfalso. rewrite E in C.
    destruct c; cbn [rename_column rest_value gr_away_rest gr_home_rest
                       gr_game] in *;
      rewrite R in C; discriminate.
Qed.

(** C6, at the failing input. In [first_home_games] no home team has played
    before, so the pivot has no [home_team] column and [by_game] no
    [home_rest]; [.dropna()] then keeps game 1 although the rest value of its
    home side is missing. *)
Theorem C6_game_kept_without_home_rest :
  exists t r,
    games_rest first_home_games = t
    /\ gr_columns t = [away_rest]
    /\ In r (gr_rows t)
    /\ game_id (gr_game r) = 1%nat
    /\ gr_home_rest r = None
    /\ rest_of (teams_rest first_home_games) 1 var_home_team = None.
Proof.
  eexists. eexists. split; [vm_compute; reflexivity |].
  split; [reflexivity |]. split; [left; reflexivity |].
  repeat split.
Qed.

Lemma isSome_true {A : Type} (x : option A) : isSome x = true <-> x <> None.
Proof. destruct x; simpl; split; congruence. Qed.

(** What [.dropna()] does secure: every row of [games_rest] is a game of
    [games] with both team names, both point values and every rest column the
    frame has; a game with a missing team name or point value is in no row of
    it. *)
Lemma games_rest_rows_complete (gs : list Game) :
  (forall r, In r (gr_rows (games_rest gs)) ->
     In (gr_game r) gs
     /\ away_team (gr_game r) <> None /\ away_points (gr_game r) <> None
     /\ home_team (gr_game r) <> None /\ home_points (gr_game r) <> None
     /\ forall c, In c (gr_columns (games_rest gs)) -> rest_value c r <> None)
  /\ (forall g, missing_attribute g = true ->
        ~ In g (map gr_game (gr_rows (games_rest gs)))).
Proof.
  assert (forall r, In r (gr_rows (games_rest gs)) ->
            In (gr_game r) gs /\ missing_attribute (gr_game r) = false
            /\ forall c, In c (gr_columns (games_rest gs)) ->
                         rest_value c r <> None) as Hrow.
  { intros r Hr. destruct (games_rest_row gs r Hr) as [Hg [_ C]].
    unfold complete in C. apply andb_true_iff in C. destruct C as [C1 C2].
    split; [exact Hg |]. split.
    - unfold missing_attribute. now rewrite C1.
    - intros c Hc. rewrite forallb_forall in C2. now apply isSome_true, C2. }
  split.
  - intros r Hr. destruct (Hrow r Hr) as [Hg [M C]].
    split; [exact Hg |].
    unfold missing_attribute in M. apply negb_false_iff in M.
    repeat (apply andb_true_iff in M; destruct M as [M ?]).
    repeat split; try (now apply isSome_true). exact C.
  - intros g M Hin. apply in_map_iff in Hin. destruct Hin as [r [<- Hr]].
    destruct (Hrow r Hr) as [_ [M' _]]. congruence.
Qed.

(** C10, at the failing input. In [first_home_games] the frame [games_rest]
    has no [home_rest] column (the defect of C6): the row of game 1 has every
    field of the frame present, both team names, both point values and its
    away rest, and is kept, although the rest value of the game's home side is
    missing. *)
Theorem C10_row_kept_with_missing_rest :
  exists r,
    In r (gr_rows (games_rest first_home_games))
    /\ game_id (gr_game r) = 1%nat
    /\ gr_columns (games_rest first_home_games) = [away_rest]
    /\ complete (gr_columns (games_rest first_home_games)) r = true
    /\ missing_attribute (gr_game r) = false
    /\ rest_value away_rest r = Some (inject_Z 1)
    /\ rest_value home_rest r = None
    /\ side_defined (teams_rest first_home_games) (game_key (gr_game r))
         var_home_team = false.
Proof.
  eexists. split; [left; reflexivity |]. repeat split.
Qed.

(* ------------------------------------------------------------------ *)
(** ** The Loader *)

Lemma read_csv_from (n : nat) (csv : list CsvRow) (i : nat) (r : CsvRow) :
  In (i, r) (combine (seq n (List.length csv)) csv)
  <-> (n <= i)%nat /\ nth_error csv (i - n) = Some r.
Proof.
  revert n. induction csv as [| a csv IH]; intros n; simpl.
  - split; [tauto |]. intros [_ H]. destruct (i - n)%nat; discriminate.
  - rewrite IH. split.
    + intros [E | [Hle H]].
      * injection E as <- <-. rewrite Nat.sub_diag. auto.
      * split; [lia |].
        replace (i - n)%nat with (S (i - S n)) by lia. exact H.
    + intros [Hle H]. destruct (i - n)%nat as [| k] eqn:E.
      * left. injection H as <-. f_equal. lia.
      * right. split; [lia |].
        replace (i - S n)%nat with k by lia. exact H.
Qed.

Lemma read_csv_In (csv : list CsvRow) (i : nat) (r : CsvRow) :
  In (i, r) (read_csv csv) <-> nth_error csv i = Some r.
Proof.
  unfold read_csv. rewrite read_csv_from, Nat.sub_0_r.
  split; [tauto | intros; split; [lia | auto]].
Qed.

Lemma read_csv_length (csv : list CsvRow) :
  List.length (read_csv csv) = List.length csv.
Proof.
  unfold read_csv. rewrite length_combine, length_seq. apply Nat.min_id.
Qed.

Lemma read_csv_labels (csv : list CsvRow) :
  map fst (read_csv csv) = seq 0 (List.length csv).
Proof.
  unfold read_csv. generalize 0%nat as n.
  induction csv as [| a csv IH]; intros n; simpl; auto.
  now rewrite IH.
Qed.

Lemma filter_split_length {A : Type} (f g : A -> bool) (l : list A) :
  (forall x, g x = negb (f x)) ->
  (List.length (filter f l) + List.length (filter g l))%nat = List.length l.
Proof.
  intros H. induction l as [| a l IH]; simpl; auto.
  rewrite H. destruct (f a); simpl; lia.
Qed.

Lemma dropped_or_kept (csv : list CsvRow) :
  (List.length (dropna_thresh 4 (read_csv csv))
   + List.length (dropped_rows csv))%nat = List.length csv.
Proof.
  unfold dropna_thresh, dropped_rows.
  rewrite filter_split_length; [apply read_csv_length |].
  intros x. apply Nat.ltb_antisym.
Qed.

Lemma traverse_Some {A B : Type} (f : A -> option B) (l : list A)
  (ys : list B) :
  traverse f l = Some ys -> Forall2 (fun x y => f x = Some y) l ys.
Proof.
  revert ys. induction l as [| x l IH]; simpl; intros ys H.
  - injection H as <-. constructor.
  - destruct (f x) as [y |] eqn:E; [| discriminate].
    destruct (traverse f l) as [ys' |]; [| discriminate].
    injection H as <-. constructor; auto.
Qed.

Lemma traverse_None {A B : Type} (f : A -> option B) (l : list A) :
  traverse f l = None <-> exists x, In x l /\ f x = None.
Proof.
  induction l as [| x l IH]; simpl.
  - split; [discriminate | intros [? [[] _]]].
  - destruct (f x) as [y |] eqn:E.
    + destruct (traverse f l) as [ys |].
      * split; [discriminate |].
        intros [z [[<- | Hz] Fz]]; [congruence |].
        assert (Some ys = None) as C by (apply IH; now exists z).
        discriminate C.
      * split; auto. intros _.
        destruct (proj1 IH eq_refl) as [z [Hz Fz]]. exists z. auto.
    + split; auto. intros _. exists x. auto.
Qed.

Section LoaderFacts.
Variable to_datetime : string -> option Z.

Lemma clean_row_id (ir : nat * CsvRow) (g : Game) :
  clean_row to_datetime ir = Some g -> game_id g = fst ir.
Proof.
  unfold clean_row. destruct (Date (snd ir)) as [s |].
  - destruct (to_datetime s); [| discriminate].
    now intros [= <-].
  - now intros [= <-].
Qed.

Lemma clean_row_None (ir : nat * CsvRow) :
  clean_row to_datetime ir = None
  <-> exists s, Date (snd ir) = Some s /\ to_datetime s = None.
Proof.
  unfold clean_row. destruct (Date (snd ir)) as [s |].
  - destruct (to_datetime s) eqn:E.
    + split; [discriminate |]. intros [s' [[= <-] E']]. congruence.
    + split; auto. intros _. now exists s.
  - split; [discriminate |]. intros [s [E _]]. discriminate.
Qed.

Lemma traverse_clean_ids (l : list (nat * CsvRow)) (ys : list Game) :
  traverse (clean_row to_datetime) l = Some ys ->
  map game_id ys = map fst l.
Proof.
  intros H. apply traverse_Some in H.
  induction H as [| x y l ys E _ IH]; simpl; auto.
  now rewrite (clean_row_id _ _ E), IH.
Qed.

(** The games are the kept lines, each under its line number. *)
Lemma games_ids (csv : list CsvRow) (gs : list Game) :
  games to_datetime csv = Some gs ->
  Permutation (map game_id gs)
    (map fst (dropna_thresh 4 (read_csv csv))).
Proof.
  unfold games.
  destruct (traverse (clean_row to_datetime)
              (dropna_thresh 4 (read_csv csv))) as [ys |] eqn:T;
    [| discriminate].
  intros [= <-]. rewrite <- (traverse_clean_ids _ _ T).
  apply Permutation_map, sort_values_perm.
Qed.

Lemma games_None (csv : list CsvRow) :
  games to_datetime csv = None
  <-> exists j r s, nth_error csv j = Some r /\ (4 <= count_notna r)%nat
                    /\ Date r = Some s /\ to_datetime s = None.
Proof.
  unfold games.
  destruct (traverse (clean_row to_datetime)
              (dropna_thresh 4 (read_csv csv))) as [ys |] eqn:T.
  - split; [discriminate |]. intros [j [r [s [Hj [Hc [Hd Hs]]]]]].
    assert (traverse (clean_row to_datetime)
              (dropna_thresh 4 (read_csv csv)) = None) as T'.
    { apply traverse_None. exists (j, r). split.
      - apply filter_In. split; [now apply read_csv_In |].
        now apply Nat.leb_le.
      - apply clean_row_None. now exists s. }
    congruence.
  - split; auto. intros _. apply traverse_None in T.
    destruct T as [[j r] [Hin Hf]]. apply filter_In in Hin.
    destruct Hin as [Hin Hc]. apply read_csv_In in Hin.
    apply Nat.leb_le in Hc. apply clean_row_None in Hf.
    destruct Hf as [s [Hd Hs]]. exists j, r, s. auto.
Qed.
End LoaderFacts.

Lemma kept_label (csv : list CsvRow) (j : nat) :
  In j (map fst (dropna_thresh 4 (read_csv csv)))
  <-> exists r, nth_error csv j = Some r /\ (4 <= count_notna r)%nat.
Proof.
  rewrite in_map_iff. split.
  - intros [[j' r] [E H]]. simpl in E. subst j'.
    apply filter_In in H. destruct H as [H C].
    exists r. split; [now apply read_csv_In | now apply Nat.leb_le].
  - intros [r [H C]]. exists (j, r). split; auto.
    apply filter_In. split; [now apply read_csv_In | now apply Nat.leb_le].
Qed.

Lemma dropped_label (csv : list CsvRow) (j : nat) :
  In j (map fst (dropped_rows csv))
  <-> exists r, nth_error csv j = Some r /\ (count_notna r < 4)%nat.
Proof.
  rewrite in_map_iff. split.
  - intros [[j' r] [E H]]. simpl in E. subst j'.
    apply filter_In in H. destruct H as [H C].
    exists r. split; [now apply read_csv_In | now apply Nat.ltb_lt].
  - intros [r [H C]]. exists (j, r). split; auto.
    apply filter_In. split; [now apply read_csv_In | now apply Nat.ltb_lt].
Qed.

Lemma StronglySorted_map {A B : Type} (R : B -> B -> Prop) (f : A -> B)
  (l : list A) :
  StronglySorted R (map f l) <-> StronglySorted (fun a b => R (f a) (f b)) l.
Proof.
  induction l as [| a l IH]; simpl.
  - split; constructor.
  - split; intros H; apply StronglySorted_inv in H; destruct H as [H1 H2];
      (constructor; [now apply IH |]).
    + apply Forall_forall. intros x Hx.
      rewrite Forall_forall in H2. apply H2. now apply in_map.
    + apply Forall_forall. intros y Hy. apply in_map_iff in Hy.
      destruct Hy as [x [<- Hx]].
      rewrite Forall_forall in H2. now apply H2.
Qed.

Lemma seq_increasing (a n : nat) : StronglySorted lt (seq a n).
Proof.
  revert a. induction n as [| n IH]; intros a; simpl.
  - constructor.
  - constructor; [apply IH |].
    apply Forall_forall. intros x Hx. apply in_seq in Hx. lia.
Qed.

Lemma sort_values_increasing {A : Type} (key : A -> Key) (l : list A) :
  StronglySorted (fun a b => (fst (key a) < fst (key b))%nat) l ->
  sort_values key l = l.
Proof.
  induction 1 as [| x l Hs IH Hall]; simpl; auto.
  rewrite IH. destruct l as [| y l]; simpl; auto.
  apply Forall_inv in Hall. now rewrite key_leb_lt.
Qed.

(** The loader establishes the index invariant: line numbers are kept and
    [sort_index] finds them in order. *)
Lemma games_index_increasing (to_datetime : string -> option Z)
  (csv : list CsvRow) (gs : list Game) :
  games to_datetime csv = Some gs -> index_increasing gs.
Proof.
  unfold games.
  destruct (traverse (clean_row to_datetime)
              (dropna_thresh 4 (read_csv csv))) as [ys |] eqn:T;
    [| discriminate].
  intros [= <-].
  assert (index_increasing ys) as Hys.
  { unfold index_increasing. apply StronglySorted_map.
    rewrite (traverse_clean_ids _ _ _ T).
    apply StronglySorted_map. apply StronglySorted_filter.
    apply StronglySorted_map. rewrite read_csv_labels.
    apply seq_increasing. }
  rewrite sort_values_increasing; auto.
Qed.

(** C7. A line with fewer than 4 non-missing fields is dropped by the loader
    before anything else reads it: it is among the dropped lines, it makes no
    game and so no row of [teams], [by_game] or [games_rest], and it cannot
    make the loader fail (the loader fails only on a kept line whose date does
    not parse).  The drop can be counted: the dropped lines and the games add
    up to the lines of the file, and the line numbers missing from the index
    of [games] are exactly those of the dropped lines. *)
Theorem C7_blank_rows_dropped (to_datetime : string -> option Z)
  (csv : list CsvRow) (i : nat) (r : CsvRow) :
  nth_error csv i = Some r -> (count_notna r < 4)%nat ->
  In (i, r) (dropped_rows csv)
  /\ (games to_datetime csv = None
      <-> exists j r' s, nth_error csv j = Some r'
                         /\ (4 <= count_notna r')%nat
                         /\ Date r' = Some s /\ to_datetime s = None)
  /\ forall gs, games to_datetime csv = Some gs ->
       (List.length gs + List.length (dropped_rows csv))%nat = List.length csv
       /\ (forall j, (j < List.length csv)%nat ->
             (In j (map fst (dropped_rows csv))
              <-> ~ In j (map game_id gs)))
       /\ ~ In i (map game_id gs)
       /\ ~ In i (map l_game_id (teams gs))
       /\ ~ In i (map (fun w => fst (w_key w))
                    (bg_rows (by_game (teams_rest gs))))
       /\ ~ In i (map (fun x => game_id (gr_game x))
                    (gr_rows (games_rest gs))).
Proof.
  intros Hi Hc. split; [| split].
  - apply filter_In. split; [now apply read_csv_In | now apply Nat.ltb_lt].
  - apply games_None.
  - intros gs Hg. pose proof (games_ids to_datetime csv gs Hg) as P.
    assert (forall j, In j (map game_id gs)
                      <-> exists r', nth_error csv j = Some r'
                                     /\ (4 <= count_notna r')%nat) as Hid.
    { intros j. rewrite <- kept_label. split; apply Permutation_in; auto.
      now apply Permutation_sym. }
    assert (~ In i (map game_id gs)) as Hnot.
    { rewrite Hid. intros [r' [E C]]. rewrite Hi in E.
      injection E as <-. lia. }
    assert (~ In i (map l_game_id (teams gs))) as Hteams.
    { intros Hin. apply Hnot.
      eapply Permutation_in in Hin;
        [| apply Permutation_map, teams_perm].
      now apply appearances_ids. }
    split; [| split; [| split; [| split; [| split]]]]; auto.
    + rewrite <- (dropped_or_kept csv). f_equal.
      rewrite <- (length_map game_id gs), (Permutation_length P).
      apply length_map.
    + intros j Hj. rewrite dropped_label, Hid.
      destruct (nth_error csv j) as [rj |] eqn:E.
      * split.
        -- intros [r' [[= <-] C]] [r'' [[= <-] C']]. lia.
        -- intros H. exists rj. split; auto.
           destruct (Nat.lt_ge_cases (count_notna rj) 4) as [C | C]; auto.
           exfalso. apply H. now exists rj.
      * apply nth_error_None in E. lia.
    + intros Hin. apply in_map_iff in Hin. destruct Hin as [w [E Hw]].
      apply (in_map w_key) in Hw. apply by_game_key_In in Hw.
      destruct Hw as [x [Hx [_ Ek]]].
      apply Hteams. apply in_map_iff. exists (fst x). split.
      * rewrite <- E, <- Ek. reflexivity.
      * rewrite <- (add_rest_fst (teams gs)). now apply in_map.
    + intros Hin. apply in_map_iff in Hin. destruct Hin as [x [E Hx]].
      apply Hnot. apply in_map_iff. exists (gr_game x). split; auto.
      now apply (games_rest_row gs x Hx).
Qed.

Lemma C7_blank_rows_dropped_witness :
  let october :=
    mkCsvRow (Some "October"%string) None None None None None None None None in
  nth_error sample_csv 0 = Some october
  /\ count_notna october = 1%nat
  /\ In (0%nat, october) (dropped_rows sample_csv)
  /\ exists gs,
       games sample_to_datetime sample_csv = Some gs
       /\ map game_id gs = [1; 2; 3]%nat
       /\ ~ In 0%nat (map game_id gs)
       /\ ~ In 0%nat (map l_game_id (teams gs)).
Proof.
  cbn zeta. split; [reflexivity |]. split; [reflexivity |].
  destruct (C7_blank_rows_dropped sample_to_datetime sample_csv 0
              (mkCsvRow (Some "October"%string) None None None None None None
                 None None) eq_refl) as [Hd [_ Hg]].
  - vm_compute. lia.
  - split; [exact Hd |]. eexists. split; [reflexivity |].
    split; [reflexivity |].
    destruct (Hg _ eq_refl) as [_ [_ [H1 [H2 _]]]].
    split; [exact H1 | exact H2].
Defined.

(* ------------------------------------------------------------------ *)
(** ** The derived analysis *)

Lemma mean_ratio (w : Z) (n : nat) :
  n <> 0%nat ->
  (Qred (w # Pos.of_nat n) * inject_Z (Z.of_nat n) == inject_Z w)%Q.
Proof.
  intros Hn. rewrite Qred_correct.
  unfold Qeq, Qmult, inject_Z. cbn [Qnum Qden].
  rewrite Pos.mul_1_r, <- (positive_nat_Z (Pos.of_nat n)), (Nat2Pos.id n Hn).
  ring.
Qed.

Lemma mean_bool_Some (l : list bool) (m : Q) :
  mean_bool l = Some m ->
  l <> []
  /\ (m * inject_Z (Z.of_nat (List.length l))
      == inject_Z (Z.of_nat (count_true l)))%Q.
Proof.
  destruct l as [| b l]; [discriminate |].
  unfold mean_bool. intros [= <-]. split; [discriminate |].
  apply (mean_ratio (Z.of_nat (count_true (b :: l))) (List.length (b :: l))).
  discriminate.
Qed.

Lemma group_mean_In (k k' : bool) (rows : list GameRest) (m : Q) :
  In (k', m) (group_mean k rows) ->
  k' = k
  /\ mean_bool (map home_won
                  (filter (fun r => Bool.eqb (home_more_rested r) k) rows))
     = Some m.
Proof.
  unfold group_mean.
  destruct (mean_bool _) as [m' |]; simpl; [| tauto].
  intros [[= <- <-] | []]. auto.
Qed.

Lemma group_mean_keys (k : bool) (rows : list GameRest) :
  map fst (group_mean k rows)
  = if existsb (fun r => Bool.eqb (home_more_rested r) k) rows
    then [k] else [].
Proof.
  unfold group_mean.
  induction rows as [| r rows IH]; simpl; auto.
  destruct (Bool.eqb (home_more_rested r) k); simpl; auto.
Qed.

(** C9, as stated, fails: with a single game, or whenever all games fall on
    one side, grouping yields one number, not two. *)
Lemma C9_single_group :
  win_rate_by_rest [game_A] = [(true, 1%Q)]
  /\ List.length (win_rate_by_rest [game_A]) <> 2%nat.
Proof. split; [reflexivity | discriminate]. Qed.

(** C9, amended. Home more rested is home-rest > away-rest and home won is
    home-points > away-points; the mean of home won grouped by home more
    rested has one number for each value of home more rested that occurs
    among the games, at most two, each the share of home wins in its group.
    For game A (home rest 3, away rest 1, home won) and game B (home rest 1,
    away rest 1, home lost) it is 1 for the more-rested group and 0 for the
    other. *)
Theorem C9_win_rate_by_rest (rows : list GameRest) :
  (forall r h a, gr_home_rest r = Some h -> gr_away_rest r = Some a ->
     (home_more_rested r = true <-> (a < h)%Q))
  /\ (forall r h a, home_points (gr_game r) = Some h ->
        away_points (gr_game r) = Some a ->
        (home_won r = true <-> (a < h)%Z))
  /\ map fst (win_rate_by_rest rows)
     = filter (fun k => existsb (fun r => Bool.eqb (home_more_rested r) k) rows)
         [false; true]
  /\ (List.length (win_rate_by_rest rows) <= 2)%nat
  /\ (forall k m, In (k, m) (win_rate_by_rest rows) ->
        let grp := filter (fun r => Bool.eqb (home_more_rested r) k) rows in
        grp <> []
        /\ (m * inject_Z (Z.of_nat (List.length grp))
            == inject_Z (Z.of_nat (count_true (map home_won grp))))%Q)
  /\ win_rate_by_rest [game_A; game_B] = [(false, 0%Q); (true, 1%Q)].
Proof.
  assert (map fst (win_rate_by_rest rows)
          = filter (fun k => existsb (fun r => Bool.eqb (home_more_rested r) k)
                               rows) [false; true]) as Hkeys.
  { unfold win_rate_by_rest. rewrite map_app, !group_mean_keys.
    cbn [filter].
    destruct (existsb (fun r => Bool.eqb (home_more_rested r) false) rows),
      (existsb (fun r => Bool.eqb (home_more_rested r) true) rows);
      reflexivity. }
  split; [| split; [| split; [exact Hkeys | split; [| split]]]].
  - intros r h a Eh Ea. unfold home_more_rested. rewrite Eh, Ea.
    rewrite negb_true_iff, <- not_true_iff_false, Qle_bool_iff.
    split; [apply Qnot_le_lt | apply Qlt_not_le].
  - intros r h a Eh Ea. unfold home_won. rewrite Eh, Ea.
    apply Z.ltb_lt.
  - rewrite <- (length_map fst), Hkeys.
    cbn [filter].
    destruct (existsb (fun r => Bool.eqb (home_more_rested r) false) rows),
      (existsb (fun r => Bool.eqb (home_more_rested r) true) rows);
      simpl; lia.
  - intros k m Hin. cbn zeta. unfold win_rate_by_rest in Hin.
    apply in_app_iff in Hin.
    destruct Hin as [Hin | Hin]; apply group_mean_In in Hin;
      destruct Hin as [-> Hm]; apply mean_bool_Some in Hm;
      destruct Hm as [Hne Hm]; rewrite length_map in Hm;
      (split; [intros E; rewrite E in Hne; now apply Hne | exact Hm]).
  - reflexivity.
Qed.

Lemma C9_win_rate_by_rest_witness :
  (home_more_rested game_A = true <-> (1 # 1 < 3 # 1)%Q)
  /\ (home_won game_B = true <-> (102 < 90)%Z)
  /\ (1%Q * inject_Z (Z.of_nat 1) == inject_Z (Z.of_nat 1))%Q.
Proof.
  pose proof (C9_win_rate_by_rest [game_A; game_B]) as [H1 [H2 [_ [_ [H5 _]]]]].
  split; [apply (H1 game_A); reflexivity |].
  split; [apply (H2 game_B); reflexivity |].
  apply (H5 true 1%Q). right. left. reflexivity.
Defined.

(* ================================================================== *)
(** * Further properties of the cells *)

(* ------------------------------------------------------------------ *)
(** ** The loader *)

Lemma Forall2_In_r {A B : Type} (R : A -> B -> Prop) (l : list A)
  (l' : list B) (y : B) :
  Forall2 R l l' -> In y l' -> exists x, In x l /\ R x y.
Proof.
  induction 1 as [| a b l l' Hab _ IH]; simpl; [tauto |].
  intros [<- | Hy].
  - exists a. auto.
  - destruct (IH Hy) as [x [Hx Hr]]. exists x. auto.
Qed.

Lemma Forall2_In_l {A B : Type} (R : A -> B -> Prop) (l : list A)
  (l' : list B) (x : A) :
  Forall2 R l l' -> In x l -> exists y, In y l' /\ R x y.
Proof.
  induction 1 as [| a b l l' Hab _ IH]; simpl; [tauto |].
  intros [<- | Hx].
  - exists b. auto.
  - destruct (IH Hx) as [y [Hy Hr]]. exists y. auto.
Qed.

(** [sort_index] finds the cleaned rows already in order. *)
Lemma games_unsorted (to_datetime : string -> option Z) (csv : list CsvRow)
  (gs : list Game) :
  games to_datetime csv = Some gs ->
  traverse (clean_row to_datetime) (dropna_thresh 4 (read_csv csv)) = Some gs.
Proof.
  intros H. pose proof (games_index_increasing _ _ _ H) as Hi.
  unfold games in H.
  destruct (traverse (clean_row to_datetime)
              (dropna_thresh 4 (read_csv csv))) as [ys |] eqn:T;
    [| discriminate].
  injection H as <-. f_equal.
  assert (index_increasing ys) as Hys.
  { unfold index_increasing. apply StronglySorted_map.
    rewrite (traverse_clean_ids _ _ _ T).
    apply StronglySorted_map. apply StronglySorted_filter.
    apply StronglySorted_map. rewrite read_csv_labels.
    apply seq_increasing. }
  symmetry. now apply sort_values_increasing.
Qed.

(** X1. Whenever the loader succeeds, the index of [games] is the list of the
    numbers of the kept lines, in file order: it increases strictly, so no
    label occurs twice, and every label is a line number of the file. *)
Theorem X1_games_index (to_datetime : string -> option Z)
  (csv : list CsvRow) (gs : list Game) :
  games to_datetime csv = Some gs ->
  map game_id gs = map fst (dropna_thresh 4 (read_csv csv))
  /\ index_increasing gs
  /\ NoDup (map game_key gs)
  /\ Forall (fun g => (game_id g < List.length csv)%nat) gs.
Proof.
  intros H. pose proof (games_unsorted _ _ _ H) as T.
  pose proof (games_index_increasing _ _ _ H) as Hi.
  split; [now apply (traverse_clean_ids to_datetime) |].
  split; [exact Hi |]. split; [now apply index_increasing_keys |].
  apply Forall_forall. intros g Hg.
  assert (In (game_id g) (map fst (dropna_thresh 4 (read_csv csv)))) as Hin.
  { rewrite <- (traverse_clean_ids to_datetime _ _ T). now apply in_map. }
  apply kept_label in Hin. destruct Hin as [r [Hr _]].
  apply nth_error_Some. congruence.
Qed.

Lemma X1_games_index_witness :
  exists gs,
    games sample_to_datetime sample_csv = Some gs
    /\ map game_id gs = [1; 2; 3]%nat
    /\ index_increasing gs.
Proof.
  eexists. split; [reflexivity |].
  destruct (X1_games_index sample_to_datetime sample_csv _ eq_refl)
    as [H1 [H2 _]].
  split; [exact H1 | exact H2].
Defined.

(** X2. Whenever the loader succeeds, the games are exactly the kept lines:
    a game is in [games] exactly when the line whose number is its [game_id]
    has at least 4 non-missing fields and the game carries that line's two
    team names, two point values and parsed date (missing when the line has
    no date). *)
Theorem X2_games_rows (to_datetime : string -> option Z)
  (csv : list CsvRow) (gs : list Game) (g : Game) :
  games to_datetime csv = Some gs ->
  (In g gs
   <-> exists r, nth_error csv (game_id g) = Some r
                 /\ (4 <= count_notna r)%nat
                 /\ date g = match Date r with
                             | Some s => to_datetime s
                             | None => None
                             end
                 /\ away_team g = Visitor_Neutral r
                 /\ away_points g = PTS r
                 /\ home_team g = Home_Neutral r
                 /\ home_points g = PTS_1 r).
Proof.
  intros H. apply games_unsorted, traverse_Some in H. split.
  - intros Hg. destruct (Forall2_In_r _ _ _ _ H Hg) as [[i r] [Hx Hc]].
    apply filter_In in Hx. destruct Hx as [Hx Hk].
    apply read_csv_In in Hx. apply Nat.leb_le in Hk. cbn [snd] in Hk.
    pose proof (clean_row_id _ _ _ Hc) as Ei. cbn [fst] in Ei.
    exists r. rewrite Ei. split; auto. split; auto.
    unfold clean_row in Hc. cbn [fst snd] in Hc.
    destruct (Date r) as [s |].
    + destruct (to_datetime s) as [d |]; [| discriminate].
      injection Hc as <-. cbn. auto.
    + injection Hc as <-. cbn. auto.
  - intros [r [Hr [Hk [Ed [Eat [Eap [Eht Ehp]]]]]]].
    assert (In (game_id g, r) (dropna_thresh 4 (read_csv csv))) as Hx.
    { apply filter_In. split; [now apply read_csv_In |].
      now apply Nat.leb_le. }
    destruct (Forall2_In_l _ _ _ _ H Hx) as [y [Hy Hc]].
    replace g with y; auto.
    unfold clean_row in Hc. cbn [fst snd] in Hc.
    destruct g as [i d at_ ap ht hp]. cbn in *. subst at_ ap ht hp.
    destruct (Date r) as [s |].
    + destruct (to_datetime s) as [d' |]; [| discriminate].
      injection Hc as <-. now subst d.
    + injection Hc as <-. now subst d.
Qed.

Lemma X2_games_rows_witness :
  exists gs,
    games sample_to_datetime sample_csv = Some gs
    /\ In (mkGame 2 (Some (days_from_civil 2015 10 27))
             (Some "Cleveland Cavaliers"%string) (Some 95)
             (Some "Chicago Bulls"%string) (Some 97)) gs.
Proof.
  eexists. split; [reflexivity |].
  apply (X2_games_rows sample_to_datetime sample_csv _ _ eq_refl).
  eexists. split; [reflexivity |]. cbn. repeat split. lia.
Defined.

(* ------------------------------------------------------------------ *)
(** ** Sorting *)

Section MoreSortingFacts.
Context {A : Type} (key : A -> Key).

Lemma key_leb_false_neq (a b : Key) : key_leb a b = false -> a <> b.
Proof. intros H ->. now rewrite key_leb_refl in H. Qed.

Lemma insert_row_filter (k : Key) (x : A) (df : list A) :
  filter (fun y => key_eqb (key y) k) (insert_row key x df)
  = filter (fun y => key_eqb (key y) k) (x :: df).
Proof.
  induction df as [| y df IH]; [reflexivity |].
  cbn [insert_row]. destruct (key_leb (key x) (key y)) eqn:E; [reflexivity |].
  cbn [filter] in *. rewrite IH.
  destruct (key_eqb (key x) k) eqn:Ex; [| reflexivity].
  destruct (key_eqb (key y) k) eqn:Ey; [| reflexivity].
  apply key_eqb_eq in Ex, Ey. apply key_leb_false_neq in E. congruence.
Qed.

Lemma insert_row_head (x : A) (df : list A) :
  StronglySorted (fun a b => key_leb (key a) (key b) = true) (x :: df) ->
  insert_row key x df = x :: df.
Proof.
  intros H. destruct df as [| y df]; [reflexivity |].
  apply StronglySorted_inv in H. destruct H as [_ H].
  apply Forall_inv in H. cbn [insert_row]. now rewrite H.
Qed.

Lemma sort_values_ordered (df : list A) :
  StronglySorted (fun a b => key_leb (key a) (key b) = true) df ->
  sort_values key df = df.
Proof.
  induction df as [| x df IH]; intros H; [reflexivity |].
  cbn [sort_values]. rewrite IH by (now apply StronglySorted_inv in H).
  now apply insert_row_head.
Qed.

(** X3. [sort_values] (and [sort_index]) is stable: the rows under one label
    come out in the order they went in. *)
Theorem X3_sort_values_stable (k : Key) (df : list A) :
  filter (fun y => key_eqb (key y) k) (sort_values key df)
  = filter (fun y => key_eqb (key y) k) df.
Proof.
  induction df as [| x df IH]; [reflexivity |].
  cbn [sort_values]. rewrite insert_row_filter.
  cbn [filter]. now rewrite IH.
Qed.

(** X4. Sorting a frame that is already in label order changes nothing, so
    sorting twice is sorting once. *)
Theorem X4_sort_values_idempotent (df : list A) :
  (StronglySorted (fun a b => key_leb (key a) (key b) = true) df ->
   sort_values key df = df)
  /\ sort_values key (sort_values key df) = sort_values key df.
Proof.
  split.
  - apply sort_values_ordered.
  - apply sort_values_ordered, sort_values_sorted.
Qed.
End MoreSortingFacts.

Lemma X4_sort_values_idempotent_witness :
  sort_values game_key bulls_games = bulls_games.
Proof.
  apply (proj1 (X4_sort_values_idempotent game_key bulls_games)).
  repeat constructor.
Defined.

(* ------------------------------------------------------------------ *)
(** ** From the file to [teams] *)

(** X5. On every file the loader accepts, [teams] lists the games in file
    order, the away row of each game directly followed by its home row. *)
Theorem X5_teams_in_file_order (to_datetime : string -> option Z)
  (csv : list CsvRow) (gs : list Game) :
  games to_datetime csv = Some gs ->
  teams gs = flat_map appearances gs.
Proof.
  intros H. apply teams_increasing. eapply games_index_increasing, H.
Qed.

Lemma X5_teams_in_file_order_witness :
  exists gs,
    games sample_to_datetime sample_csv = Some gs
    /\ teams gs = flat_map appearances gs.
Proof.
  eexists. split; [reflexivity |].
  apply (X5_teams_in_file_order sample_to_datetime sample_csv _ eq_refl).
Defined.

(* ------------------------------------------------------------------ *)
(** ** Differences of dates *)

Lemma diff_from_increasing (p : Z) (dates : list Z) :
  StronglySorted Z.lt (p :: dates) ->
  Forall (fun v => forall z, v = Some z -> 0 <= z)
    (diff_from (Some p) (map Some dates)).
Proof.
  revert p. induction dates as [| d dates IH]; intros p H; cbn.
  - constructor.
  - apply StronglySorted_inv in H. destruct H as [Hs Hp].
    constructor; [| now apply IH].
    intros z [= <-]. apply Forall_inv in Hp. lia.
Qed.

(** X6. For a team whose dates strictly increase, no value of
    [.diff().dt.days - 1] is negative, each later row gets the days since the
    row before minus one, and the value is 0 exactly when the two games are on
    consecutive days. *)
Theorem X6_rest_never_negative (dates : list Z) :
  StronglySorted Z.lt dates ->
  Forall (fun v => forall z, v = Some z -> 0 <= z)
    (diff_days_minus_1 (map Some dates))
  /\ forall i d d',
       nth_error dates i = Some d -> nth_error dates (S i) = Some d' ->
       nth_error (diff_days_minus_1 (map Some dates)) (S i)
       = Some (Some (d' - d - 1))
       /\ (d' - d - 1 = 0 <-> d' = d + 1).
Proof.
  intros H. split.
  - destruct dates as [| d dates]; cbn; constructor.
    + discriminate.
    + now apply diff_from_increasing.
  - intros i d d' Hd Hd'. split; [| lia].
    unfold diff_days_minus_1.
    rewrite (diff_from_nth None _ i (Some d) (Some d')); auto;
      now apply nth_error_map_eq.
Qed.

Lemma X6_rest_never_negative_witness :
  nth_error
    (diff_days_minus_1
       (map Some [days_from_civil 2015 10 27; days_from_civil 2015 10 28;
                  days_from_civil 2015 10 30])) 1
  = Some (Some (days_from_civil 2015 10 28 - days_from_civil 2015 10 27 - 1)).
Proof.
  apply (proj2 (X6_rest_never_negative
                  [days_from_civil 2015 10 27; days_from_civil 2015 10 28;
                   days_from_civil 2015 10 30]
                  ltac:(repeat constructor)) 0%nat);
    reflexivity.
Defined.





(* ------------------------------------------------------------------ *)
(** ** The group-by difference *)

(** X8. The group-by cell repeats the Chicago expression for every team: the
    rest values on the rows of a team are [.diff().dt.days - 1] of that team's
    dates, in frame order, and there is one rest value per row of [teams]. *)
Theorem X8_rest_is_diff_per_team (df : list TeamRow) (name : string) :
  map snd (team_partition name (add_rest df))
  = diff_days_minus_1 (map l_date (select_team name df))
  /\ map fst (team_partition name (add_rest df)) = select_team name df
  /\ List.length (rest df) = List.length df.
Proof.
  destruct (rest_partition name df) as [Hf Hs].
  split; [exact Hs |]. split; [exact Hf | apply rest_length].
Qed.

Lemma dropna_series_length {A : Type} (s : list (option A)) :
  List.length (dropna_series s) = List.length (filter isSome s).
Proof.
  induction s as [| [a |] s IH]; cbn; auto.
Qed.

Lemma list_sum_cons (a : nat) (l : list nat) :
  list_sum (a :: l) = (a + list_sum l)%nat.
Proof. reflexivity. Qed.

Lemma list_sum_plus {A : Type} (f g : A -> nat) (l : list A) :
  list_sum (map (fun t => (f t + g t)%nat) l)
  = (list_sum (map f l) + list_sum (map g l))%nat.
Proof.
  induction l as [| a l IH]; [reflexivity |].
  cbn [map]. rewrite !list_sum_cons, IH. lia.
Qed.

Lemma list_sum_zero {A : Type} (f : A -> nat) (l : list A) :
  (forall t, In t l -> f t = 0%nat) -> list_sum (map f l) = 0%nat.
Proof.
  induction l as [| a l IH]; intros H; [reflexivity |].
  cbn [map]. rewrite list_sum_cons, (H a) by now left.
  apply IH. intros t Ht. apply H. now right.
Qed.

(** A name of a duplicate-free list is counted once. *)
Lemma list_sum_indicator (names : list string) (t0 : string) (n : nat) :
  NoDup names -> In t0 names ->
  list_sum (map (fun t => if String.eqb t0 t then n else 0%nat) names) = n.
Proof.
  induction names as [| a names IH]; intros N Hin; [destruct Hin |].
  apply NoDup_cons_iff in N. destruct N as [Na N].
  cbn [map]. rewrite list_sum_cons.
  destruct (String.eqb t0 a) eqn:E.
  - apply String.eqb_eq in E. subst a.
    rewrite list_sum_zero; [lia |].
    intros t Ht. destruct (String.eqb t0 t) eqn:E'; auto.
    apply String.eqb_eq in E'. now subst t.
  - destruct Hin as [-> | Hin]; [now rewrite String.eqb_refl in E |].
    now rewrite IH.
Qed.

(** Counting rows team by team. *)
Lemma filter_by_team_length (P : RestRow -> bool) (names : list string)
  (l : list RestRow) :
  NoDup names ->
  (forall x, In x l -> exists t, team (fst x) = Some t /\ In t names) ->
  List.length (filter P l)
  = list_sum (map (fun t => List.length (filter P (team_partition t l)))
                names).
Proof.
  intros N. induction l as [| x l IH]; intros H.
  - cbn. symmetry. now apply list_sum_zero.
  - destruct (H x (or_introl eq_refl)) as [t0 [Et Hin]].
    assert (forall t,
              List.length (filter P (team_partition t (x :: l)))
              = ((if String.eqb t0 t then if P x then 1 else 0 else 0)
                 + List.length (filter P (team_partition t l)))%nat) as E.
    { intros t. unfold team_partition. cbn [filter].
      unfold team_is at 1. rewrite Et.
      destruct (String.eqb t0 t); [| reflexivity].
      cbn [filter]. now destruct (P x). }
    rewrite (map_ext _ _ E), list_sum_plus, list_sum_indicator by auto.
    rewrite <- IH by (intros y Hy; apply H; now right).
    cbn [filter]. now destruct (P x).
Qed.

(** All rows of a team but its first carry a rest value, when the team's rows
    all have a date. *)
Lemma partition_defined_count (df : list TeamRow) (name : string) :
  (forall r, In r df -> l_date r <> None) ->
  (exists r, In r df /\ team r = Some name) ->
  (List.length (filter (fun x => isSome (snd x))
                  (team_partition name (add_rest df))) + 1)%nat
  = List.length (team_partition name (add_rest df)).
Proof.
  intros Hd [r [Hr Et]].
  destruct (rest_partition name df) as [Hf Hs].
  assert (List.length (team_partition name (add_rest df))
          = List.length (select_team name df)) as El
    by (rewrite <- Hf; symmetry; apply length_map).
  rewrite (filter_snd_length isSome), Hs, El.
  assert (In r (select_team name df)) as Hin
    by (apply filter_In; split; auto; now apply team_is_eq).
  assert (forall y, In y (select_team name df) -> l_date y <> None) as Hd'
    by (intros y Hy; apply filter_In in Hy; now apply Hd).
  destruct (select_team name df) as [| y part]; [destruct Hin |].
  destruct (l_date y) as [d |] eqn:Ed;
    [| now elim (Hd' y (or_introl eq_refl))].
  unfold diff_days_minus_1. cbn [map diff_from]. rewrite Ed.
  cbn [days_minus_1 filter isSome].
  rewrite filter_all.
  - rewrite diff_from_length, length_map. cbn [List.length].
    apply Nat.add_1_r.
  - apply diff_from_defined. apply Forall_forall. intros z Hz.
    apply in_map_iff in Hz. destruct Hz as [y' [<- Hy']].
    apply Hd'. now right.
Qed.

(** X9. [rest.dropna()] has one value for every row of [teams] except the
    first row of each team: when every row has a team name and a date, its
    length is the number of rows less the number of teams. *)
Theorem X9_rest_dropna_count (df : list TeamRow) (names : list string) :
  NoDup names ->
  (forall r, In r df ->
     l_date r <> None /\ exists t, team r = Some t /\ In t names) ->
  (forall t, In t names -> exists r, In r df /\ team r = Some t) ->
  (List.length (dropna_series (rest df)) + List.length names)%nat
  = List.length df.
Proof.
  intros N Hrows Hnames.
  assert (forall x, In x (add_rest df) ->
            exists t, team (fst x) = Some t /\ In t names) as Hcover.
  { intros x Hx. apply (in_map fst) in Hx. rewrite add_rest_fst in Hx.
    now apply Hrows. }
  set (count := fun t => List.length
                          (filter (fun x : RestRow => isSome (snd x))
                             (team_partition t (add_rest df)))).
  assert (List.length (dropna_series (rest df))
          = list_sum (map count names)) as Ecount.
  { rewrite dropna_series_length, <- add_rest_snd, <- filter_snd_length.
    apply (filter_by_team_length _ names _ N Hcover). }
  assert (List.length df
          = list_sum (map (fun t => (count t + 1)%nat) names)) as Eall.
  { transitivity (List.length (add_rest df)).
    { rewrite <- (add_rest_fst df) at 1. apply length_map. }
    transitivity
      (List.length (filter (fun _ : RestRow => true) (add_rest df))).
    { f_equal. symmetry. apply filter_all. apply Forall_forall; auto. }
    etransitivity;
      [apply (filter_by_team_length (fun _ => true) names _ N Hcover) |].
    f_equal. apply map_ext_in. intros t Ht. unfold count.
    rewrite partition_defined_count.
    - f_equal. apply filter_all. apply Forall_forall; auto.
    - intros r Hr. now apply Hrows.
    - now apply Hnames. }
  rewrite Ecount, Eall, list_sum_plus. f_equal.
  clear. induction names as [| a names IH]; [reflexivity |].
  cbn [map List.length]. now rewrite list_sum_cons, <- IH.
Qed.

Ltac in_list := cbn; repeat (first [left; reflexivity | right]).

Lemma X9_rest_dropna_count_witness :
  (List.length (dropna_series (rest (teams bulls_games))) + 3)%nat = 6%nat.
Proof.
  apply (X9_rest_dropna_count (teams bulls_games)
           ["Cleveland Cavaliers"; "Chicago Bulls"; "Detroit Pistons"]%string).
  - repeat constructor; cbn; intuition discriminate.
  - intros r Hr. cbn in Hr.
    repeat (destruct Hr as [<- | Hr];
            [split; [discriminate
                    | eexists; split; [reflexivity | in_list]] |]).
    destruct Hr.
  - intros t Ht. cbn in Ht.
    destruct Ht as [<- | [<- | [<- | []]]].
    + exists (mkLong 1%nat (Some (days_from_civil 2015 10 27)) var_away_team
                (Some "Cleveland Cavaliers"%string)).
      split; [in_list | reflexivity].
    + exists (mkLong 1%nat (Some (days_from_civil 2015 10 27)) var_home_team
                (Some "Chicago Bulls"%string)).
      split; [in_list | reflexivity].
    + exists (mkLong 2%nat (Some (days_from_civil 2015 10 30)) var_home_team
                (Some "Detroit Pistons"%string)).
      split; [in_list | reflexivity].
Defined.

(* ------------------------------------------------------------------ *)
(** ** The rows of [by_game] *)

Lemma date_leb_antisym (a b : option Z) :
  date_leb a b = true -> date_leb b a = true -> a = b.
Proof.
  destruct a, b; cbn; try congruence.
  rewrite !Z.leb_le. intros. f_equal. lia.
Qed.

Lemma key_leb_antisym (a b : Key) :
  key_leb a b = true -> key_leb b a = true -> a = b.
Proof.
  destruct a as [i d], b as [j e]. unfold key_leb. cbn [fst snd].
  rewrite !orb_true_iff, !andb_true_iff, !Nat.ltb_lt, !Nat.eqb_eq.
  intros [H1 | [H1 D1]] [H2 | [H2 D2]]; try lia.
  subst j. f_equal. now apply date_leb_antisym.
Qed.

Lemma key_lt_sorted (l : list Key) :
  StronglySorted (fun a b => key_leb a b = true) l -> NoDup l ->
  StronglySorted key_lt l.
Proof.
  induction 1 as [| a l Hs IH Hall]; intros N; constructor.
  - apply IH. now apply NoDup_cons_iff in N.
  - apply NoDup_cons_iff in N. destruct N as [Na _].
    rewrite Forall_forall in *. intros b Hb. split; auto.
    intros ->. contradiction.
Qed.

(** Two lists in strict label order with the same labels are equal. *)
Lemma key_lt_sorted_ext (l1 l2 : list Key) :
  StronglySorted key_lt l1 -> StronglySorted key_lt l2 ->
  (forall k, In k l1 <-> In k l2) -> l1 = l2.
Proof.
  intros H1. revert l2.
  induction H1 as [| a l1 Hs1 IH Ha]; intros l2 H2 Hin.
  - destruct l2 as [| b l2]; auto.
    destruct (proj2 (Hin b) (or_introl eq_refl)).
  - destruct H2 as [| b l2 Hs2 Hb].
    + destruct (proj1 (Hin a) (or_introl eq_refl)).
    + rewrite Forall_forall in Ha, Hb.
      assert (a = b) as ->.
      { destruct (proj1 (Hin a) (or_introl eq_refl)) as [E | Hal2]; auto.
        destruct (proj2 (Hin b) (or_introl eq_refl)) as [E | Hbl1]; auto.
        destruct (Ha b Hbl1) as [Lab _]. destruct (Hb a Hal2) as [Lba _].
        now apply key_leb_antisym. }
      f_equal. apply IH; auto. intros k. split; intros Hk.
      * destruct (proj1 (Hin k) (or_intror Hk)) as [E | Hk2]; auto.
        subst k. destruct (Ha b Hk) as [_ Ne]. now elim Ne.
      * destruct (proj2 (Hin k) (or_intror Hk)) as [E | Hk1]; auto.
        subst k. destruct (Hb b Hk) as [_ Ne]. now elim Ne.
Qed.

Lemma filter_keys_sorted (f : Game -> bool) (gs : list Game) :
  index_increasing gs -> StronglySorted key_lt (map game_key (filter f gs)).
Proof.
  intros H. apply StronglySorted_map.
  apply (StronglySorted_filter _ f) in H.
  induction H as [| g l Hs IH Hall]; constructor; auto.
  rewrite Forall_forall in *. intros g' Hg'. specialize (Hall g' Hg').
  split; [now apply key_leb_lt |].
  unfold game_key. intros [= E _]. lia.
Qed.

(** The row of [by_game] under the label of a game. *)
Lemma by_game_lookup (gs : list Game) (g : Game) :
  index_increasing gs -> In g gs ->
  lookup_rest (game_key g) (bg_rows (by_game (teams_rest gs)))
  = if has_rest (teams_rest gs) g
    then Some (mkWideRest (game_key g)
                 (option_map inject_Z
                    (rest_of (teams_rest gs) (game_id g) var_away_team))
                 (option_map inject_Z
                    (rest_of (teams_rest gs) (game_id g) var_home_team)))
    else None.
Proof.
  intros Hi Hg.
  pose proof (teams_rest_sides_NoDup gs Hi) as N.
  pose proof (join_left_rest gs g Hi Hg) as J. unfold join_left in J.
  destruct (lookup_rest (game_key g) (bg_rows (by_game (teams_rest gs))))
    as [w |] eqn:L.
  - injection J as Ea Eh.
    destruct (lookup_rest_Some _ _ _ L) as [Ek Hw].
    assert (has_rest (teams_rest gs) g = true) as ->.
    { apply (in_map w_key) in Hw. apply by_game_key_In in Hw.
      destruct Hw as [x [Hx [O Ex]]].
      pose proof (rest_of_unique _ N x Hx) as R.
      assert (l_game_id (fst x) = game_id g) as Ei
        by (unfold long_key, game_key in *; congruence).
      rewrite Ei in R. unfold has_rest.
      assert (isSome (snd x) = true) as S.
      { unfold observed in O. destruct (l_date (fst x)); [| discriminate].
        now destruct (snd x). }
      destruct (home_away (fst x)); rewrite R, S;
        [reflexivity | apply orb_true_r]. }
    destruct w as [k a h]. cbn [w_key w_away w_home] in *. now subst k a h.
  - injection J as Ea Eh. unfold has_rest.
    destruct (rest_of (teams_rest gs) (game_id g) var_away_team);
      [discriminate |].
    destruct (rest_of (teams_rest gs) (game_id g) var_home_team);
      [discriminate |].
    reflexivity.
Qed.

(** X10. For games with increasing index, [by_game] has a row under the label
    of a game exactly when one of the game's two appearances has a rest value;
    the row then holds, under each side, the rest value of that appearance,
    missing when the appearance has none. *)
Theorem X10_by_game_row (gs : list Game) (g : Game) :
  index_increasing gs -> In g gs ->
  lookup_rest (game_key g) (bg_rows (by_game (teams_rest gs)))
  = if has_rest (teams_rest gs) g
    then Some (mkWideRest (game_key g)
                 (option_map inject_Z
                    (rest_of (teams_rest gs) (game_id g) var_away_team))
                 (option_map inject_Z
                    (rest_of (teams_rest gs) (game_id g) var_home_team)))
    else None.
Proof. apply by_game_lookup. Qed.

Lemma X10_by_game_row_witness :
  lookup_rest (2%nat, Some (days_from_civil 2015 10 30))
    (bg_rows (by_game (teams_rest bulls_games)))
  = Some (mkWideRest (2%nat, Some (days_from_civil 2015 10 30))
            (Some (inject_Z 2)) None).
Proof.
  apply (X10_by_game_row bulls_games
           (mkGame 2 (Some (days_from_civil 2015 10 30))
              (Some "Chicago Bulls"%string) (Some 94)
              (Some "Detroit Pistons"%string) (Some 98))).
  - repeat constructor.
  - in_list.
Defined.

Lemma by_game_key_has_rest (gs : list Game) (k : Key) :
  index_increasing gs ->
  In k (map w_key (bg_rows (by_game (teams_rest gs))))
  <-> In k (map game_key (filter (has_rest (teams_rest gs)) gs)).
Proof.
  intros Hi. split.
  - intros Hk. pose proof Hk as Hk'. apply by_game_key_In in Hk'.
    destruct Hk' as [x [Hx [_ Ex]]].
    apply teams_rest_game in Hx. destruct Hx as [g [Hg [Eg _]]].
    assert (k = game_key g) as -> by congruence.
    apply in_map, filter_In. split; auto.
    pose proof (by_game_lookup gs g Hi Hg) as L.
    destruct (has_rest (teams_rest gs) g); auto.
    now apply lookup_rest_None in L.
  - intros Hk. apply in_map_iff in Hk. destruct Hk as [g [<- Hg]].
    apply filter_In in Hg. destruct Hg as [Hg Hr].
    pose proof (by_game_lookup gs g Hi Hg) as L. rewrite Hr in L.
    apply lookup_rest_Some in L. destruct L as [Ek Hw].
    rewrite <- Ek. now apply in_map.
Qed.

(** X11. For games with increasing index, the rows of [by_game] are the
    games that have a rest value on some side, in the order of [games]. *)
Theorem X11_by_game_in_games_order (gs : list Game) :
  index_increasing gs ->
  map w_key (bg_rows (by_game (teams_rest gs)))
  = map game_key (filter (has_rest (teams_rest gs)) gs).
Proof.
  intros Hi. apply key_lt_sorted_ext.
  - apply key_lt_sorted; [| apply by_game_keys_NoDup].
    rewrite by_game_keys. apply (sort_values_sorted (fun k : Key => k)).
  - now apply filter_keys_sorted.
  - intros k. now apply by_game_key_has_rest.
Qed.

Lemma X11_by_game_in_games_order_witness :
  map w_key (bg_rows (by_game (teams_rest bulls_games)))
  = [(2%nat, Some (days_from_civil 2015 10 30));
     (3%nat, Some (days_from_civil 2015 11 1))].
Proof.
  apply (X11_by_game_in_games_order bulls_games).
  repeat constructor.
Defined.

(* ------------------------------------------------------------------ *)
(** ** [games_rest] and [by_game.dropna()] *)

Lemma rest_value_wide (r : GameRest) (c : RestColumn) :
  rest_value c r = wide_value c (wide_of r).
Proof. now destruct c. Qed.

Lemma lookup_rest_In (df : list RestRow) (w : WideRest) :
  In w (bg_rows (by_game df)) ->
  lookup_rest (w_key w) (bg_rows (by_game df)) = Some w.
Proof.
  intros Hw. unfold lookup_rest.
  apply (find_unique w_key); auto.
  - apply by_game_keys_NoDup.
  - apply key_eqb_refl.
  - intros y _ E. now apply key_eqb_eq in E.
Qed.

Lemma by_game_row_determined (df : list RestRow) (w : WideRest) :
  In w (bg_rows (by_game df)) ->
  w = mkWideRest (w_key w) (mean (group_values (w_key w) var_away_team df))
        (mean (group_values (w_key w) var_home_team df)).
Proof.
  intros H. apply by_game_row_In in H. destruct H as [_ H].
  pose proof (H var_away_team) as Ha. pose proof (H var_home_team) as Hh.
  destruct w as [k a h]. cbn [cell w_key w_away w_home] in *. congruence.
Qed.

Lemma map_determined {A B : Type} (key : A -> B) (F : B -> A) (l : list A) :
  (forall w, In w l -> w = F (key w)) -> l = map F (map key l).
Proof.
  induction l as [| a l IH]; intros H; [reflexivity |].
  cbn [map]. f_equal.
  - apply H. now left.
  - apply IH. intros w Hw. apply H. now right.
Qed.

Lemma filter_join_left (cols : list RestColumn) (bg : ByGame)
  (l : list Game) :
  map gr_game (filter (complete cols) (map (join_left bg) l))
  = filter (fun g => complete cols (join_left bg g)) l.
Proof.
  induction l as [| g l IH]; [reflexivity |].
  cbn [map filter].
  destruct (complete cols (join_left bg g)) eqn:C;
    cbn [map]; rewrite IH; [| reflexivity].
  now rewrite join_left_game.
Qed.

Section GamesRestRows.
Variables (gs : list Game) (t : GamesRest).
Hypothesis games_rest_t : games_rest gs = t.

Let bg : ByGame := by_game (teams_rest gs).

Lemma games_rest_t_frame :
  gr_columns t = bg_columns bg
  /\ gr_rows t = filter (complete (gr_columns t)) (map (join_left bg) gs).
Proof. rewrite <- games_rest_t. apply games_rest_frame. Qed.

Lemma games_rest_t_row (r : GameRest) :
  In r (gr_rows t) ->
  In (gr_game r) gs /\ r = join_left bg (gr_game r)
  /\ complete (gr_columns t) r = true.
Proof. rewrite <- games_rest_t. apply games_rest_row. Qed.

Lemma games_rest_columns : gr_columns t = bg_columns bg.
Proof. apply games_rest_t_frame. Qed.

Lemma games_rest_games :
  map gr_game (gr_rows t)
  = filter (fun g => complete (gr_columns t) (join_left bg g)) gs.
Proof.
  destruct games_rest_t_frame as [_ E]. rewrite E.
  apply filter_join_left.
Qed.

(** A kept row comes from a row of [by_game.dropna()]. *)
Lemma games_rest_row_wide (r : GameRest) :
  bg_columns bg <> [] -> In r (gr_rows t) ->
  In (wide_of r) (bg_rows (dropna_by_game bg)).
Proof.
  intros Hcols Hr.
  destruct (games_rest_t_row r Hr) as [Hg [E C]].
  rewrite games_rest_columns in C.
  unfold complete in C. apply andb_true_iff in C. destruct C as [_ C].
  fold bg in E. unfold join_left in E.
  destruct (lookup_rest (game_key (gr_game r)) (bg_rows bg)) as [w |] eqn:L.
  - destruct (lookup_rest_Some _ _ _ L) as [Ek Hw].
    assert (wide_of r = w) as Ew.
    { rewrite E. unfold wide_of. cbn [gr_game gr_away_rest gr_home_rest].
      rewrite <- Ek. now destruct w. }
    rewrite Ew. cbn [dropna_by_game bg_rows]. apply filter_In.
    split; [exact Hw |]. rewrite <- Ew.
    rewrite forallb_forall in *. intros c Hc.
    rewrite <- rest_value_wide. now apply C.
  - exfalso. destruct (bg_columns bg) as [| c cols]; [now apply Hcols |].
    cbn [forallb] in C. apply andb_true_iff in C. destruct C as [C _].
    rewrite E in C. now destruct c.
Qed.

(** A row of [by_game.dropna()] is kept, when its game misses no team name
    and no point value. *)
Lemma wide_row_games_rest (w : WideRest) :
  (forall g, In g gs -> missing_attribute g = false) ->
  In w (bg_rows (dropna_by_game bg)) ->
  exists r, In r (gr_rows t) /\ wide_of r = w.
Proof.
  intros Hattr Hw. cbn [dropna_by_game bg_rows] in Hw.
  apply filter_In in Hw. destruct Hw as [Hw C].
  pose proof (by_game_keys_of_games gs w Hw) as Hk.
  apply existsb_exists in Hk. destruct Hk as [k [Hk E]].
  apply key_eqb_eq in E. subst k.
  apply in_map_iff in Hk. destruct Hk as [g [Eg Hg]].
  exists (mkGameRest g (w_away w) (w_home w)). split.
  - destruct games_rest_t_frame as [Ec Er].
    rewrite Er. apply filter_In. split.
    + apply in_map_iff. exists g. split; auto.
      unfold join_left, bg in *. rewrite Eg.
      now rewrite (lookup_rest_In _ w Hw).
    + unfold complete. cbn [gr_game].
      specialize (Hattr g Hg). unfold missing_attribute in Hattr.
      apply negb_false_iff in Hattr. rewrite Hattr. cbn [andb].
      rewrite Ec. rewrite forallb_forall in *. intros c Hc.
      specialize (C c Hc). now destruct c.
  - unfold wide_of. cbn [gr_game gr_away_rest gr_home_rest].
    rewrite Eg. now destruct w.
Qed.
End GamesRestRows.

Lemma by_game_keys_sorted (df : list RestRow) :
  StronglySorted key_lt (map w_key (bg_rows (by_game df))).
Proof.
  apply key_lt_sorted; [| apply by_game_keys_NoDup].
  rewrite by_game_keys. apply (sort_values_sorted (fun k : Key => k)).
Qed.

Lemma dropna_by_game_keys_sorted (df : list RestRow) :
  StronglySorted key_lt (map w_key (bg_rows (dropna_by_game (by_game df)))).
Proof.
  pose proof (proj1 (StronglySorted_map key_lt w_key _)
                (by_game_keys_sorted df)) as H.
  apply (proj2 (StronglySorted_map key_lt w_key _)).
  exact (StronglySorted_filter _ _ _ H).
Qed.

(** X12. For games with increasing index that miss no team name and no point
    value, and a [by_game] that has at least one column, the labels and rest
    cells of [games_rest] are exactly the frame [by_game.dropna()], row for
    row. *)
Theorem X12_games_rest_is_by_game_dropna (gs : list Game) :
  index_increasing gs ->
  bg_columns (by_game (teams_rest gs)) <> [] ->
  (forall g, In g gs -> missing_attribute g = false) ->
  map wide_of (gr_rows (games_rest gs))
  = bg_rows (dropna_by_game (by_game (teams_rest gs))).
Proof.
  intros Hi Hcols Hattr.
  set (t := games_rest gs). assert (games_rest gs = t) as Ht by reflexivity.
  set (F := fun k => mkWideRest k
                       (mean (group_values k var_away_team (teams_rest gs)))
                       (mean (group_values k var_home_team (teams_rest gs)))).
  assert (forall w, In w (bg_rows (dropna_by_game (by_game (teams_rest gs))))
                    -> w = F (w_key w)) as Hdet.
  { intros w Hw. cbn [dropna_by_game bg_rows] in Hw. apply filter_In in Hw.
    now apply by_game_row_determined. }
  transitivity (map F (map w_key (map wide_of (gr_rows t)))).
  { apply map_determined. intros w Hw.
    apply in_map_iff in Hw. destruct Hw as [r [<- Hr]].
    apply Hdet. now apply (games_rest_row_wide gs t Ht). }
  transitivity
    (map F (map w_key (bg_rows (dropna_by_game (by_game (teams_rest gs)))))).
  { f_equal. apply key_lt_sorted_ext.
    - rewrite map_map.
      replace (map (fun r => w_key (wide_of r)) (gr_rows t))
        with (map game_key (map gr_game (gr_rows t)))
        by (rewrite map_map; reflexivity).
      rewrite (games_rest_games gs t Ht). now apply filter_keys_sorted.
    - apply dropna_by_game_keys_sorted.
    - intros k. split; intros Hk.
      + apply in_map_iff in Hk. destruct Hk as [w [<- Hw]].
        apply in_map_iff in Hw. destruct Hw as [r [<- Hr]].
        apply in_map. now apply (games_rest_row_wide gs t Ht).
      + apply in_map_iff in Hk. destruct Hk as [w [<- Hw]].
        destruct (wide_row_games_rest gs t Ht w Hattr Hw) as [r [Hr <-]].
        apply in_map. now apply in_map. }
  symmetry. now apply map_determined.
Qed.

Lemma X12_games_rest_is_by_game_dropna_witness :
  map wide_of (gr_rows (games_rest bulls_games))
  = [mkWideRest (3%nat, Some (days_from_civil 2015 11 1))
       (Some (1 # 1)) (Some (4 # 1))].
Proof.
  apply (X12_games_rest_is_by_game_dropna bulls_games
           ltac:(repeat constructor)).
  - discriminate.
  - intros g Hg. cbn in Hg.
    destruct Hg as [<- | [<- | [<- | []]]]; reflexivity.
Defined.

(** X13. For games with increasing index, every row of [games_rest] is a row
    of [games] with, under [away_rest] and [home_rest], the rest values of
    the game's away and home appearance: nothing is replaced or defaulted. *)
Theorem X13_games_rest_cells (gs : list Game) (r : GameRest) :
  index_increasing gs -> In r (gr_rows (games_rest gs)) ->
  In (gr_game r) gs
  /\ gr_away_rest r
     = option_map inject_Z
         (rest_of (teams_rest gs) (game_id (gr_game r)) var_away_team)
  /\ gr_home_rest r
     = option_map inject_Z
         (rest_of (teams_rest gs) (game_id (gr_game r)) var_home_team).
Proof.
  intros Hi Hr.
  destruct (games_rest_row gs r Hr) as [Hg [E _]].
  rewrite (join_left_rest gs _ Hi Hg) in E.
  split; [exact Hg |]. rewrite E at 1 3. cbn. auto.
Qed.

Lemma X13_games_rest_cells_witness :
  Some (4 # 1)
  = option_map inject_Z (rest_of (teams_rest bulls_games) 3 var_home_team).
Proof.
  apply (X13_games_rest_cells bulls_games
           (mkGameRest
              (mkGame 3 (Some (days_from_civil 2015 11 1))
                 (Some "Detroit Pistons"%string) (Some 90)
                 (Some "Cleveland Cavaliers"%string) (Some 102))
              (Some (1 # 1)) (Some (4 # 1)))).
  - repeat constructor.
  - now left.
Defined.

Lemma NoDup_map_filter {A B : Type} (f : A -> B) (P : A -> bool)
  (l : list A) :
  NoDup (map f l) -> NoDup (map f (filter P l)).
Proof.
  induction l as [| a l IH]; intros N; [constructor |].
  cbn [map] in N. apply NoDup_cons_iff in N. destruct N as [Na N].
  cbn [filter]. destruct (P a); [| now apply IH].
  cbn [map]. constructor; [| now apply IH].
  intros Hin. apply Na. apply in_map_iff in Hin.
  destruct Hin as [a' [Ea Ha']]. apply filter_In in Ha'.
  rewrite <- Ea. now apply in_map.
Qed.

(** X14. For games with increasing index, the index of [games_rest] still
    increases: the kept games stand in the order of [games], the join adds no
    row, and no label occurs twice. *)
Theorem X14_games_rest_order (gs : list Game) :
  index_increasing gs ->
  index_increasing (map gr_game (gr_rows (games_rest gs)))
  /\ NoDup (map (fun r => game_key (gr_game r)) (gr_rows (games_rest gs)))
  /\ (List.length (gr_rows (games_rest gs)) <= List.length gs)%nat.
Proof.
  intros Hi.
  pose proof (games_rest_games gs (games_rest gs) eq_refl) as E.
  split; [| split].
  - rewrite E. now apply StronglySorted_filter.
  - rewrite <- (map_map gr_game game_key), E.
    now apply NoDup_map_filter, index_increasing_keys.
  - rewrite <- (length_map gr_game), E. apply filter_length_le.
Qed.

Lemma X14_games_rest_order_witness :
  index_increasing (map gr_game (gr_rows (games_rest bulls_games))).
Proof.
  apply (X14_games_rest_order bulls_games).
  repeat constructor.
Defined.

(* ------------------------------------------------------------------ *)
(** ** Performance.ipynb: sums and means with a missing value *)

Lemma dropna_series_Some {A : Type} (l : list A) :
  dropna_series (map Some l) = l.
Proof.
  induction l as [| a l IH]; [reflexivity |].
  unfold dropna_series in *. cbn [map flat_map app]. now rewrite IH.
Qed.

Lemma sum_Z_app (l1 l2 : list Z) : sum_Z (l1 ++ l2) = sum_Z l1 + sum_Z l2.
Proof.
  unfold sum_Z. induction l1 as [| a l1 IH]; cbn; [reflexivity |].
  rewrite IH. lia.
Qed.

Lemma range_length (n : nat) : List.length (range n) = n.
Proof. unfold range. now rewrite length_map, length_seq. Qed.

Lemma range_sum (n : nat) :
  2 * sum_Z (range n) = Z.of_nat n * (Z.of_nat n - 1).
Proof.
  induction n as [| n IH]; [reflexivity |].
  unfold range in *. rewrite seq_S, map_app, sum_Z_app.
  cbn [map sum_Z fold_right Nat.add]. lia.
Qed.

Lemma mean_of_sum (l : list Z) (m : Q) :
  mean l = Some m ->
  l <> [] /\ (m * inject_Z (Z.of_nat (List.length l)) == inject_Z (sum_Z l))%Q.
Proof.
  destruct l as [| a l]; [discriminate |].
  unfold mean. intros [= <-]. split; [discriminate |].
  apply (mean_ratio (sum_Z (a :: l)) (List.length (a :: l))). discriminate.
Qed.

(** X15. The sum of the series [range(n)] is n(n-1)/2, and in the series
    [None] followed by [range(n)] the mean skips the missing first element: it
    is (n-1)/2, the mean of [range(n)] alone, not the smaller value a zero in
    its place would give. *)
Theorem X15_mean_skips_missing (n : nat) :
  (0 < n)%nat ->
  2 * series_sum (map Some (range n)) = Z.of_nat n * (Z.of_nat n - 1)
  /\ exists m, series_mean (none_then_range n) = Some m
               /\ series_mean (map Some (range n)) = Some m
               /\ (m * 2 == inject_Z (Z.of_nat n - 1))%Q.
Proof.
  intros Hn.
  assert (dropna_series (none_then_range n) = range n) as E
    by (unfold none_then_range; cbn; apply dropna_series_Some).
  unfold series_sum, series_mean. rewrite E, dropna_series_Some.
  split; [apply range_sum |].
  destruct (mean (range n)) as [m |] eqn:M.
  - exists m. split; [reflexivity |]. split; [reflexivity |].
    apply mean_of_sum in M. destruct M as [_ M].
    rewrite range_length in M.
    assert (inject_Z (Z.of_nat n) * (m * 2)
            == inject_Z (Z.of_nat n) * inject_Z (Z.of_nat n - 1))%Q as H.
    { rewrite <- inject_Z_mult, <- range_sum, inject_Z_mult, <- M.
      change (inject_Z 2) with 2%Q. ring. }
    apply Qmult_inj_l in H; auto.
    intros C. unfold Qeq, inject_Z in C. cbn in C. lia.
  - exfalso. pose proof (range_length n) as L.
    destruct (range n); [cbn in L; lia | discriminate].
Qed.

Lemma X15_mean_skips_missing_witness :
  exists m, series_mean (none_then_range (100 * 100)) = Some m
            /\ series_mean (map Some (range (100 * 100))) = Some m
            /\ (m * 2 == inject_Z (Z.of_nat (100 * 100) - 1))%Q.
Proof.
  apply (X15_mean_skips_missing (100 * 100)). lia.
Defined.

(* ------------------------------------------------------------------ *)
(** ** Performance.ipynb: categoricals *)

Lemma index_of_Some (v : string) (cats : list string) (i : nat) :
  index_of v cats = Some i -> nth_error cats i = Some v.
Proof.
  revert i. induction cats as [| c cats IH]; intros i; cbn; [discriminate |].
  destruct (String.eqb c v) eqn:E.
  - intros [= <-]. apply String.eqb_eq in E. now subst c.
  - destruct (index_of v cats) as [j |]; [| discriminate].
    intros [= <-]. now apply IH.
Qed.

Lemma index_of_None (v : string) (cats : list string) :
  index_of v cats = None <-> ~ In v cats.
Proof.
  induction cats as [| c cats IH]; cbn; [tauto |].
  destruct (String.eqb c v) eqn:E.
  - apply String.eqb_eq in E. split; [discriminate | tauto].
  - apply String.eqb_neq in E.
    destruct (index_of v cats) as [j |].
    + split; [discriminate |]. intros H. exfalso. apply H. right.
      destruct (in_dec string_dec v cats) as [Hin | Hn]; auto.
      now apply IH in Hn.
    + split; auto. intros _ [C | C]; [contradiction |].
      now apply (proj1 IH).
Qed.

Lemma unique_strings_NoDup (l : list string) :
  unique_strings l = true -> NoDup l.
Proof.
  induction l as [| x l IH]; cbn; [constructor |].
  rewrite andb_true_iff, negb_true_iff. intros [Hx Hl].
  constructor; [| now apply IH].
  intros Hin. rewrite <- not_true_iff_false in Hx. apply Hx.
  apply existsb_exists. exists x. split; auto. apply String.eqb_refl.
Qed.

Lemma index_of_nth (cats : list string) (i : nat) (v : string) :
  NoDup cats -> nth_error cats i = Some v -> index_of v cats = Some i.
Proof.
  revert i. induction cats as [| c cats IH]; intros i N H.
  - destruct i; discriminate.
  - apply NoDup_cons_iff in N. destruct N as [Nc N].
    destruct i as [| i]; cbn in *.
    + injection H as ->. now rewrite String.eqb_refl.
    + destruct (String.eqb c v) eqn:E.
      * apply String.eqb_eq in E. subst c.
        exfalso. apply Nc. eapply nth_error_In, H.
      * now rewrite (IH i N H).
Qed.

Lemma decode_code_of (cats : list string) (v : string) :
  decode_code cats (code_of cats v)
  = if existsb (String.eqb v) cats then Some v else None.
Proof.
  unfold decode_code, code_of.
  destruct (index_of v cats) as [i |] eqn:E.
  - replace (Z.of_nat i <? 0) with false by (symmetry; apply Z.ltb_ge; lia).
    rewrite Nat2Z.id, (index_of_Some _ _ _ E).
    replace (existsb (String.eqb v) cats) with true; auto.
    symmetry. apply existsb_exists. exists v. split.
    + eapply nth_error_In, index_of_Some, E.
    + apply String.eqb_refl.
  - cbn. apply index_of_None in E.
    replace (existsb (String.eqb v) cats) with false; auto.
    symmetry. apply not_true_iff_false. intros H.
    apply existsb_exists in H. destruct H as [x [Hx Ex]].
    apply String.eqb_eq in Ex. now subst x.
Qed.

(** X16. A categorical round-trips: when the constructor succeeds, the codes
    are positions in [categories] or -1, one per value; decoding them gives
    back every value that is a category and a missing value for the others;
    and factorizing a decoded value gives back its code. *)
Theorem X16_categorical_round_trip (values cats : list string) (o : bool)
  (a : Categorical) :
  Categorical_new values cats o = Some a ->
  categories a = cats
  /\ List.length (codes a) = List.length values
  /\ Forall (fun c => -1 <= c < Z.of_nat (List.length cats)) (codes a)
  /\ Categorical_values a
     = map (fun v => if existsb (String.eqb v) cats then Some v else None)
         values
  /\ forall c v, decode_code cats c = Some v -> code_of cats v = c.
Proof.
  unfold Categorical_new. destruct (unique_strings cats) eqn:U; [| discriminate].
  intros [= <-]. cbn [categories codes].
  split; [reflexivity |]. split; [apply length_map |]. split; [| split].
  - apply Forall_forall. intros c Hc. apply in_map_iff in Hc.
    destruct Hc as [v [<- _]]. unfold code_of.
    destruct (index_of v cats) as [i |] eqn:E; [| lia].
    apply index_of_Some in E.
    assert (i < List.length cats)%nat by (apply nth_error_Some; congruence).
    lia.
  - unfold Categorical_values. cbn [categories codes]. rewrite map_map.
    apply map_ext. apply decode_code_of.
  - intros c v H. unfold decode_code in H.
    destruct (c <? 0) eqn:C; [discriminate |]. apply Z.ltb_ge in C.
    unfold code_of.
    rewrite (index_of_nth cats _ v (unique_strings_NoDup _ U) H).
    now apply Z2Nat.id.
Qed.

Lemma X16_categorical_round_trip_witness :
  exists a,
    Categorical_new (fst quality) (snd quality) true = Some a
    /\ codes a = [0; 1; 0; 2]
    /\ Categorical_values a
       = map (fun v => if existsb (String.eqb v) (snd quality)
                       then Some v else None) (fst quality).
Proof.
  eexists. split; [reflexivity |]. split; [reflexivity |].
  apply (X16_categorical_round_trip (fst quality) (snd quality) true _
           eq_refl).
Defined.

Lemma set_nth_length {A : Type} (l : list A) (i : nat) (x : A) :
  List.length (set_nth l i x) = List.length l.
Proof.
  revert i. induction l as [| y l IH]; intros [| i]; cbn; auto.
Qed.

Lemma set_nth_same {A : Type} (l : list A) (i : nat) (x : A) :
  (i < List.length l)%nat -> nth_error (set_nth l i x) i = Some x.
Proof.
  revert i. induction l as [| y l IH]; intros [| i] H; cbn in *;
    try lia; auto.
  apply IH. lia.
Qed.

Lemma set_nth_other {A : Type} (l : list A) (i k : nat) (x : A) :
  k <> i -> nth_error (set_nth l i x) k = nth_error l k.
Proof.
  revert i k. induction l as [| y l IH]; intros [| i] [| k] H; cbn;
    try congruence; auto.
Qed.

Lemma py_index_bound (n : nat) (i : Z) (j : nat) :
  py_index n i = Some j -> (j < n)%nat.
Proof.
  unfold py_index.
  destruct ((0 <=? (if i <? 0 then i + Z.of_nat n else i))
            && ((if i <? 0 then i + Z.of_nat n else i) <? Z.of_nat n)) eqn:E;
    [| discriminate].
  intros [= <-]. apply andb_true_iff in E. destruct E as [E1 E2].
  apply Z.leb_le in E1. apply Z.ltb_lt in E2. lia.
Qed.

(** X17. [a[i] = v] on a categorical raises exactly when [v] is not one of
    the categories or [i] is out of bounds.  When it succeeds, the categories,
    the ordering flag and the length are unchanged, the element at [i] reads
    back as [v], and every other element is unchanged. *)
Theorem X17_categorical_setitem (a : Categorical) (i : Z) (v : string) :
  (Categorical_setitem a i v = None
   <-> ~ In v (categories a)
       \/ py_index (List.length (codes a)) i = None)
  /\ forall a', Categorical_setitem a i v = Some a' ->
       categories a' = categories a
       /\ ordered a' = ordered a
       /\ List.length (codes a') = List.length (codes a)
       /\ exists j, py_index (List.length (codes a)) i = Some j
            /\ nth_error (Categorical_values a') j = Some (Some v)
            /\ forall k, k <> j ->
                 nth_error (Categorical_values a') k
                 = nth_error (Categorical_values a) k.
Proof.
  unfold Categorical_setitem. split.
  - destruct (index_of v (categories a)) as [c |] eqn:E.
    + assert (In v (categories a))
        by (eapply nth_error_In, index_of_Some, E).
      destruct (py_index (List.length (codes a)) i);
        intuition discriminate.
    + apply index_of_None in E. tauto.
  - intros a' H.
    destruct (index_of v (categories a)) as [c |] eqn:E; [| discriminate].
    destruct (py_index (List.length (codes a)) i) as [j |] eqn:P;
      [| discriminate].
    injection H as <-. cbn [categories ordered codes].
    split; [reflexivity |]. split; [reflexivity |].
    split; [apply set_nth_length |].
    exists j. split; [reflexivity |].
    unfold Categorical_values. cbn [categories codes]. split.
    + rewrite nth_error_map, set_nth_same by (eapply py_index_bound, P).
      cbn [option_map]. f_equal. unfold decode_code.
      replace (Z.of_nat c <? 0) with false
        by (symmetry; apply Z.ltb_ge; lia).
      rewrite Nat2Z.id. now apply index_of_Some.
    + intros k Hk. now rewrite !nth_error_map, set_nth_other.
Qed.

Lemma X17_categorical_setitem_witness :
  Categorical_setitem
    (mkCategorical (snd quality) [0; 1; 0; 2] true) 0 "OK" = None
  /\ exists a',
       Categorical_setitem
         (mkCategorical (snd quality) [0; 1; 0; 2] true) (-1) "good" = Some a'
       /\ List.length (codes a') = 4%nat.
Proof.
  split.
  - apply (proj1 (X17_categorical_setitem
                    (mkCategorical (snd quality) [0; 1; 0; 2] true) 0 "OK")).
    left. cbn. intuition discriminate.
  - eexists. split; [reflexivity |].
    apply (proj2 (X17_categorical_setitem
                    (mkCategorical (snd quality) [0; 1; 0; 2] true) (-1)
                    "good") _ eq_refl).
Defined.

(* ------------------------------------------------------------------ *)
(** ** Performance.ipynb: the memory estimate *)

(** X18. Whatever [sys.getsizeof("AL")] is, say [b] bytes: the plain column
    is estimated at 321 b MB; the categorical column at 321 MB as long as the
    50 category strings stay under one MB; and the categorical estimate is
    never the larger one. *)
Theorem X18_categorical_memory (b : Z) :
  1 <= b ->
  plain_MB b = 321 * b
  /\ (50 * b < 1000000 -> categorical_MB b = 321)
  /\ categorical_MB b <= plain_MB b.
Proof.
  intros Hb. unfold plain_MB, categorical_MB, population. cbn zeta.
  assert (321000000 * b / 1000000 = 321 * b) as Ep.
  { replace (321000000 * b) with (321 * b * 1000000) by lia.
    apply Z.div_mul. lia. }
  split; [exact Ep |]. split.
  - intros Hs. symmetry. apply (Z.div_unique_pos _ _ _ (50 * b)); lia.
  - rewrite Ep.
    destruct (Z.eq_dec b 1) as [-> | Hne]; [vm_compute; discriminate |].
    rewrite <- Ep. apply Z.div_le_mono; lia.
Qed.

Lemma X18_categorical_memory_witness :
  plain_MB 51 = 321 * 51 /\ categorical_MB 51 = 321.
Proof.
  destruct (X18_categorical_memory 51 ltac:(lia)) as [H1 [H2 _]].
  split; [exact H1 | apply H2; lia].
Defined.

(* ------------------------------------------------------------------ *)
(** ** The columns of [by_game] and the games [games_rest] keeps *)

(** X20. When [games_rest] has both rest columns, for games with increasing
    index it keeps exactly the games that miss no team name and no point value
    and whose away and home appearance both have a rest value. *)
Theorem X20_games_rest_kept (gs : list Game) (g : Game) :
  index_increasing gs ->
  gr_columns (games_rest gs) = [away_rest; home_rest] -> In g gs ->
  (In g (map gr_game (gr_rows (games_rest gs)))
   <-> missing_attribute g = false
       /\ rest_of (teams_rest gs) (game_id g) var_away_team <> None
       /\ rest_of (teams_rest gs) (game_id g) var_home_team <> None).
Proof.
  intros Hi Hc Hg.
  rewrite (games_rest_games gs (games_rest gs) eq_refl), filter_In, Hc.
  rewrite (join_left_rest gs g Hi Hg).
  unfold complete, missing_attribute.
  cbn [gr_game forallb rest_value gr_away_rest gr_home_rest].
  rewrite negb_false_iff, !andb_true_iff.
  destruct (rest_of (teams_rest gs) (game_id g) var_away_team),
    (rest_of (teams_rest gs) (game_id g) var_home_team);
    cbn [option_map isSome]; intuition congruence.
Qed.

Lemma X20_games_rest_kept_witness :
  In (mkGame 3 (Some (days_from_civil 2015 11 1))
        (Some "Detroit Pistons"%string) (Some 90)
        (Some "Cleveland Cavaliers"%string) (Some 102))
    (map gr_game (gr_rows (games_rest bulls_games))).
Proof.
  apply (X20_games_rest_kept bulls_games _
           ltac:(repeat constructor) eq_refl).
  - in_list.
  - split; [reflexivity |]. split; discriminate.
Defined.
